(** * maklogger: the rendering pipeline of the console logger

    A shallow embedding of [colors.go], [stack.go] and [maklogger.go].
    Go strings are byte strings and are modelled by [string] (one [ascii]
    per byte, so an emoji literal is its four UTF-8 bytes).  Standard
    output is the list of writes performed on it, threaded explicitly.  The
    parts of the Go runtime the logger reads (clock, call stack, symbol
    table) are gathered in one record that every rendering call receives.
    [encoding/json] is not part of the repository; it is modelled after its
    documented behaviour on the value shapes listed in [any].  The
    constructor [NewLogger] and the console-mode switch it performs on
    Windows only choose the initial value of [colorsEnabled]; the rendering
    functions take that flag as given, and the constructor is modelled
    apart, over a record of the console procedures it calls. *)

From Stdlib Require Import ZArith NArith Ascii String DecimalString Permutation.
From stdpp Require Import gmap strings list fin_maps sorting.

Set Warnings "-register-all".

Local Open Scope Z_scope.

(** ** Byte strings: the fragments of [strings] and [fmt] the logger uses *)

Module Strings.

Definition LF : ascii := "010"%char.
Definition ESC : ascii := "027"%char.
Definition DQUOTE : ascii := "034"%char.

Definition single (c : ascii) : string := String c EmptyString.

(** [strings.HasPrefix] *)
Fixpoint HasPrefix (s prefix : string) {struct prefix} : bool :=
  match prefix with
  | EmptyString => true
  | String a p =>
      match s with
      | EmptyString => false
      | String b s' => if Ascii.eqb a b then HasPrefix s' p else false
      end
  end.

(** [strings.Contains] *)
Fixpoint Contains (s substr : string) : bool :=
  HasPrefix s substr ||
  match s with
  | EmptyString => false
  | String _ s' => Contains s' substr
  end.

(** [strings.Join] *)
Fixpoint Join (elems : list string) (sep : string) : string :=
  match elems with
  | [] => EmptyString
  | [e] => e
  | e :: rest => e +:+ sep +:+ Join rest sep
  end.

(** [strings.Split] for a separator of one byte, the only way the logger
    calls it ([Split(fn, ".")] and [Split(json, "\n")]).  The result is
    never empty. *)
Fixpoint Split (s : string) (sep : ascii) : list string :=
  match s with
  | EmptyString => [EmptyString]
  | String c s' =>
      if Ascii.eqb c sep then EmptyString :: Split s' sep
      else match Split s' sep with
           | [] => [single c]
           | w :: ws => String c w :: ws
           end
  end.

(** [strings.Repeat] *)
Fixpoint Repeat (s : string) (count : nat) : string :=
  match count with
  | O => EmptyString
  | S n => s +:+ Repeat s n
  end.

(** Does the byte [c] occur in [s]? *)
Fixpoint hasByte (c : ascii) (s : string) : bool :=
  match s with
  | EmptyString => false
  | String b s' => Ascii.eqb b c || hasByte c s'
  end.

(** [strconv.Itoa] *)
Definition Itoa (i : Z) : string := NilZero.string_of_int (Z.to_int i).

End Strings.
Import Strings.

(** ** colors.go *)

(** [type Color string] *)
Definition Color : Type := string.

(** [type Level int] *)
Definition Level : Type := Z.

Definition LevelInfo : Level := 0.
Definition LevelSuccess : Level := 1.
Definition LevelDebug : Level := 2.
Definition LevelCritical : Level := 3.
Definition LevelError : Level := 4.
Definition LevelWarn : Level := 5.

(** The escape sequence [\033] followed by [code]. *)
Definition esc (code : string) : Color := String ESC code.

Definition Reset : Color := esc "[0m".
Definition Bold : Color := esc "[1m".
Definition Dim : Color := esc "[2m".
Definition Italic : Color := esc "[3m".
Definition Underline : Color := esc "[4m".
Definition Blink : Color := esc "[5m".
Definition Inverse : Color := esc "[7m".
Definition Hidden : Color := esc "[8m".
Definition Strikethrough : Color := esc "[9m".

Definition BoldWhite : Color := esc "[1;97m".
Definition Gray : Color := esc "[90m".
Definition DarkGray : Color := esc "[2;37m".

Definition Black : Color := esc "[30m".
Definition Red : Color := esc "[31m".
Definition Green : Color := esc "[32m".
Definition Yellow : Color := esc "[33m".
Definition Blue : Color := esc "[34m".
Definition Magenta : Color := esc "[35m".
Definition Cyan : Color := esc "[36m".
Definition White : Color := esc "[37m".

Definition BrightBlack : Color := esc "[90m".
Definition BrightRed : Color := esc "[91m".
Definition BrightGreen : Color := esc "[92m".
Definition BrightYellow : Color := esc "[93m".
Definition BrightBlue : Color := esc "[94m".
Definition BrightMagenta : Color := esc "[95m".
Definition BrightCyan : Color := esc "[96m".
Definition BrightWhite : Color := esc "[97m".

Definition BgBlack : Color := esc "[40m".
Definition BgRed : Color := esc "[41m".
Definition BgGreen : Color := esc "[42m".
Definition BgYellow : Color := esc "[43m".
Definition BgBlue : Color := esc "[44m".
Definition BgMagenta : Color := esc "[45m".
Definition BgCyan : Color := esc "[46m".
Definition BgWhite : Color := esc "[47m".

Definition BgBrightBlack : Color := esc "[100m".
Definition BgBrightRed : Color := esc "[101m".
Definition BgBrightGreen : Color := esc "[102m".
Definition BgBrightYellow : Color := esc "[103m".
Definition BgBrightBlue : Color := esc "[104m".
Definition BgBrightMagenta : Color := esc "[105m".
Definition BgBrightCyan : Color := esc "[106m".
Definition BgBrightWhite : Color := esc "[107m".

(** [func Colorize(text string, fg Color, bg ...Color) string]; the variadic
    [bg] is the list of the extra arguments, of which only the first is
    read. *)
Definition Colorize (text : string) (fg : Color) (bg : list Color) : string :=
  match bg with
  | bg0 :: _ => fg +:+ bg0 +:+ text +:+ Reset
  | [] => fg +:+ text +:+ Reset
  end.

(** [func ColorizeIfEnabled(text string, enabled bool, fg Color, bg ...Color) string] *)
Definition ColorizeIfEnabled (text : string) (enabled : bool) (fg : Color)
    (bg : list Color) : string :=
  if negb enabled then text else Colorize text fg bg.

(** ** encoding/json on the value shapes a field can carry *)

(** The dynamic values ([any]) the model covers: the nil interface,
    booleans, integers, strings, non-nil slices, non-nil string-keyed maps,
    values of a type the encoder rejects (channels, functions, complex
    numbers), identified by the name of that type, and values of a type
    that implements [json.Marshaler] and whose [MarshalJSON] method returns
    an error, identified by the name of the type and the text of the error.
    Floating-point numbers and struct values are left out. *)
Inductive any : Type :=
| VNil
| VBool (b : bool)
| VInt (n : Z)
| VString (s : string)
| VSlice (xs : list any)
| VMap (m : gmap string any)
| VUnsupported (ty : string)
| VMarshaler (ty msg : string).

Module json.

(** The errors [MarshalIndent] can return on these values. *)
Inductive error : Type :=
| UnsupportedTypeError (ty : string)
| MarshalerError (ty msg : string)
| SyntaxError (msg : string).

(** [func (e error) Error() string], what [%v] prints. *)
Definition Error (e : error) : string :=
  match e with
  | UnsupportedTypeError ty => "json: unsupported type: " +:+ ty
  | MarshalerError ty msg =>
      "json: error calling MarshalJSON for type " +:+ ty +:+ ": " +:+ msg
  | SyntaxError msg => msg
  end.

Inductive result (A : Type) : Type :=
| Ok (a : A)
| Err (e : error).
Global Arguments Ok {A} a.
Global Arguments Err {A} e.

(** The error monad of the encoder: [x ← r; k] stops at the first error. *)
Global Instance result_bind : MBind result := λ A B k r,
  match r with
  | Ok a => k a
  | Err e => Err e
  end.
Global Instance result_ret : MRet result := λ A a, Ok a.

Definition hex (n : N) : ascii :=
  ascii_of_N (if (n <? 10)%N then 48 + n else 87 + n)%N.

(** A byte below [utf8.RuneSelf] as [appendString] writes it with
    [escapeHTML] set: printable bytes other than the quote, the backslash
    and [<], [>], [&] are copied. *)
Definition appendByte (b : ascii) : string :=
  let n := N_of_ascii b in
  if ((32 <=? n) && negb (n =? 34) && negb (n =? 38) && negb (n =? 60)
      && negb (n =? 62) && negb (n =? 92))%N then single b
  else if ((n =? 92) || (n =? 34))%N then "\" +:+ single b
  else if (n =? 8)%N then "\b"
  else if (n =? 12)%N then "\f"
  else if (n =? 10)%N then "\n"
  else if (n =? 13)%N then "\r"
  else if (n =? 9)%N then "\t"
  else "\u00" +:+ String (hex (N.shiftr n 4)) (single (hex (N.land n 15))).

Definition between (lo hi : N) (b : ascii) : bool :=
  ((lo <=? N_of_ascii b) && (N_of_ascii b <=? hi))%N.

(** The size of the UTF-8 sequence at the head of [s], following
    [utf8.DecodeRuneInString]; [O] stands for an invalid sequence
    ([RuneError] of width one).  [s] starts with a byte of [0x80] or more. *)
Definition runeLen (s : string) : nat :=
  match s with
  | EmptyString => O
  | String b0 r0 =>
      let n0 := N_of_ascii b0 in
      let '(sz, lo, hi) :=
        (if (194 <=? n0) && (n0 <=? 223) then (2%nat, 128, 191)
         else if n0 =? 224 then (3%nat, 160, 191)
         else if (225 <=? n0) && (n0 <=? 236) then (3%nat, 128, 191)
         else if n0 =? 237 then (3%nat, 128, 159)
         else if (238 <=? n0) && (n0 <=? 239) then (3%nat, 128, 191)
         else if n0 =? 240 then (4%nat, 144, 191)
         else if (241 <=? n0) && (n0 <=? 243) then (4%nat, 128, 191)
         else if n0 =? 244 then (4%nat, 128, 143)
         else (O, 0, 0))%N in
      match sz, r0 with
      | 2%nat, String b1 _ => if between lo hi b1 then 2%nat else O
      | 3%nat, String b1 (String b2 _) =>
          if between lo hi b1 && between 128 191 b2 then 3%nat else O
      | 4%nat, String b1 (String b2 (String b3 _)) =>
          if between lo hi b1 && between 128 191 b2 && between 128 191 b3
          then 4%nat else O
      | _, _ => O
      end
  end.

(** The body of [appendString] between the two quotes. *)
Fixpoint appendRunes (src : string) : string :=
  match src with
  | EmptyString => EmptyString
  | String b0 r0 =>
      if (N_of_ascii b0 <? 128)%N then appendByte b0 +:+ appendRunes r0
      else
        match runeLen src, r0 with
        | 2%nat, String b1 r1 => String b0 (String b1 (appendRunes r1))
        | 3%nat, String b1 (String b2 r2) =>
            if ((N_of_ascii b0 =? 226) && (N_of_ascii b1 =? 128)
                && ((N_of_ascii b2 =? 168) || (N_of_ascii b2 =? 169)))%N
            then "\u202" +:+ String (hex (N.land (N_of_ascii b2) 15))
                               (appendRunes r2)
            else String b0 (String b1 (String b2 (appendRunes r2)))
        | 4%nat, String b1 (String b2 (String b3 r3)) =>
            String b0 (String b1 (String b2 (String b3 (appendRunes r3))))
        | _, _ => "\ufffd" +:+ appendRunes r0
        end
  end.

(** [appendString(dst, src, escapeHTML = true)]: a JSON string literal. *)
Definition appendString (src : string) : string :=
  String DQUOTE (appendRunes src +:+ single DQUOTE).

(** The entries of a map in the order the encoder writes them: by
    increasing key, compared byte by byte. *)
Definition keyLe {A : Type} (x y : string * A) : Prop := String.le x.1 y.1.

Global Instance keyLe_dec {A : Type} : RelDecision (@keyLe A).
Proof. intros x y. unfold keyLe. apply _. Defined.

Definition sortedEntries {A : Type} (m : gmap string A) : list (string * A) :=
  merge_sort keyLe (map_to_list m).

(** The nesting limit of the scanner that [Indent] runs over the encoding. *)
Definition maxNestingDepth : N := 10000.

(** [json.Marshal]: the compact encoding. *)
Fixpoint Marshal (v : any) : result string :=
  match v with
  | VNil => Ok "null"
  | VBool b => Ok (if b then "true" else "false")
  | VInt n => Ok (Itoa n)
  | VString s => Ok (appendString s)
  | VSlice xs =>
      elems ← mapM Marshal xs;
      Ok ("[" +:+ Join elems "," +:+ "]")
  | VMap m =>
      entries ← mapM (λ kv, s ← kv.2; Ok (appendString kv.1 +:+ ":" +:+ s))
                     (sortedEntries (Marshal <$> m));
      Ok ("{" +:+ Join entries "," +:+ "}")
  | VUnsupported ty => Err (UnsupportedTypeError ty)
  | VMarshaler ty msg => Err (MarshalerError ty msg)
  end.

(** [appendNewline]: a line feed, the prefix, and [depth] indents. *)
Definition appendNewline (prefix indent : string) (depth : N) : string :=
  single LF +:+ prefix +:+ Repeat indent (N.to_nat depth).

(** An opening bracket [open], the elements each on a line of its own at
    [depth + 1], and the closing bracket on a line at [depth]; an empty
    container stays on one line. *)
Definition indentContainer (prefix indent : string) (depth : N)
    (open close : string) (elems : list string) : string :=
  match elems with
  | [] => open +:+ close
  | _ =>
      open +:+ appendNewline prefix indent (depth + 1)
      +:+ Join elems ("," +:+ appendNewline prefix indent (depth + 1))
      +:+ appendNewline prefix indent depth +:+ close
  end.

(** [json.Indent] applied to the encoding of [v], [depth] containers being
    open around it.  Scalars are copied, a colon is followed by a space,
    and a container that would be the 10001st open one is refused by the
    scanner. *)
Fixpoint indentValue (prefix indent : string) (depth : N) (v : any)
    : result string :=
  match v with
  | VSlice xs =>
      if (maxNestingDepth <=? depth)%N
      then Err (SyntaxError "invalid character '[' exceeded max depth")
      else
        elems ← mapM (indentValue prefix indent (depth + 1)) xs;
        Ok (indentContainer prefix indent depth "[" "]" elems)
  | VMap m =>
      if (maxNestingDepth <=? depth)%N
      then Err (SyntaxError "invalid character '{' exceeded max depth")
      else
        entries ← mapM (λ kv, s ← kv.2; Ok (appendString kv.1 +:+ ": " +:+ s))
                       (sortedEntries (indentValue prefix indent (depth + 1) <$> m));
        Ok (indentContainer prefix indent depth "{" "}" entries)
  | _ => Marshal v
  end.

(** [json.MarshalIndent(v, prefix, indent)]: [Marshal], then [Indent].  The
    first line of the result carries neither the prefix nor an indent. *)
Definition MarshalIndent (v : any) (prefix indent : string) : result string :=
  _ ← Marshal v; indentValue prefix indent 0 v.

End json.

(** ** The Go runtime as one rendering call sees it *)

Module time.

(** A wall-clock reading: the calendar fields [Format] prints. *)
Record Time : Type := {
  Year : Z;
  Month : Z;
  Day : Z;
  Hour : Z;
  Minute : Z;
  Second : Z;
  Nanosecond : Z
}.

(** [appendInt(b, x, width)]: the decimal digits of [x], padded with zeros
    on the left up to [width], after a minus sign when [x] is negative. *)
Definition appendInt (x : Z) (width : nat) : string :=
  let digits := Itoa (Z.abs x) in
  (if x <? 0 then "-" else EmptyString)
  +:+ Repeat "0" (width - String.length digits) +:+ digits.

(** [t.Format("2006-01-02 15:04:05.000")] *)
Definition Format (t : Time) : string :=
  appendInt (Year t) 4 +:+ "-" +:+ appendInt (Month t) 2 +:+ "-"
  +:+ appendInt (Day t) 2 +:+ " " +:+ appendInt (Hour t) 2 +:+ ":"
  +:+ appendInt (Minute t) 2 +:+ ":" +:+ appendInt (Second t) 2 +:+ "."
  +:+ appendInt (Nanosecond t / 1000000) 3.

End time.

Module filepath.

(** [filepath.Base] where the path separator is the slash: the last
    element of the path, trailing slashes removed; ["."] for the empty
    path and ["/"] for a path of slashes only. *)
Definition Base (path : string) : string :=
  if String.eqb path EmptyString then "."
  else match last (filter (λ e, e ≠ EmptyString) (Split path "/"%char)) with
       | Some e => e
       | None => "/"
       end.

End filepath.

(** What [runtime.Caller] reports for a frame that exists. *)
Record Frame : Type := {
  pc : Z;
  file : string;
  line : Z
}.

(** The runtime at the moment of one call of [getCallerInfo]:
    [Caller skip] is the outcome of [runtime.Caller(skip)] issued there
    ([None] when [ok] is false), [FuncForPC pc] the name of the function
    [runtime.FuncForPC(pc)] finds ([None] when it returns nil), and [Now]
    the reading of [time.Now()]. *)
Record Runtime : Type := {
  Caller : Z → option Frame;
  FuncForPC : Z → option string;
  Now : time.Time
}.

(** ** stack.go *)

(** [func getCallerInfo(skip int) (file string, line int, function string)] *)
Definition getCallerInfo (rt : Runtime) (skip : Z) : string * Z * string :=
  match Caller rt skip with
  | None => ("???", 0, "???")
  | Some fr =>
      let funcName :=
        match FuncForPC rt (pc fr) with
        | Some name => name
        | None => "???"
        end in
      (filepath.Base (file fr), line fr, funcName)
  end.

(** ** maklogger.go *)

Record MakLogger : Type := {
  colorsEnabled : bool
}.

Record Field : Type := {
  Key : string;
  Value : any
}.

(** Standard output: the writes issued so far, oldest first. *)
Definition Stdout : Type := list string.

Module fmt.

(** [fmt.Println(s)]: one write of [s] and a line feed. *)
Definition Println (s : string) (out : Stdout) : Stdout :=
  out ++ [s +:+ single LF].

(** [fmt.Printf] with an already expanded format: one write. *)
Definition Printf (s : string) (out : Stdout) : Stdout := out ++ [s].

End fmt.

Definition ColorsEnabled (mk : MakLogger) : bool := colorsEnabled mk.

Definition SetColorsEnabled (mk : MakLogger) (enabled : bool) : MakLogger :=
  {| colorsEnabled := enabled |}.

(** [func (mk *MakLogger) getColoredLevel(level Level) string] *)
Definition getColoredLevel (mk : MakLogger) (level : Level) : string :=
  let en := colorsEnabled mk in
  if level =? LevelInfo then
    ColorizeIfEnabled "📝 " en BrightBlue [] +:+ " "
    +:+ ColorizeIfEnabled "INFO    " en BoldWhite [BgBlue]
  else if level =? LevelSuccess then
    ColorizeIfEnabled "✅ " en BrightGreen [] +:+ " "
    +:+ ColorizeIfEnabled "SUCCESS " en BoldWhite [BgGreen]
  else if level =? LevelDebug then
    ColorizeIfEnabled "🐛 " en BrightMagenta [] +:+ " "
    +:+ ColorizeIfEnabled "DEBUG   " en BoldWhite [BgMagenta]
  else if level =? LevelCritical then
    ColorizeIfEnabled "🛑 " en BrightRed [] +:+ " "
    +:+ ColorizeIfEnabled "CRITICAL" en BoldWhite [BgBrightRed]
  else if level =? LevelError then
    ColorizeIfEnabled "❌ " en BrightRed [] +:+ " "
    +:+ ColorizeIfEnabled "ERROR   " en BoldWhite [BgRed]
  else if level =? LevelWarn then
    ColorizeIfEnabled "⚠️ " en BrightYellow [] +:+ " "
    +:+ ColorizeIfEnabled "WARNING " en Bold [BgYellow]
  else "UNDEFINED".

(** [func (mk *MakLogger) getColoredMessage(level Level, message string) string] *)
Definition getColoredMessage (mk : MakLogger) (level : Level)
    (message : string) : string :=
  let en := colorsEnabled mk in
  if level =? LevelInfo then ColorizeIfEnabled message en BrightWhite []
  else if level =? LevelSuccess then ColorizeIfEnabled message en BrightGreen []
  else if level =? LevelDebug then ColorizeIfEnabled message en BrightMagenta []
  else if level =? LevelCritical then
    ColorizeIfEnabled message en BrightRed [BgBlack]
  else if level =? LevelError then ColorizeIfEnabled message en BrightRed []
  else if level =? LevelWarn then ColorizeIfEnabled message en BrightYellow []
  else "UNDEFINED".

(** The map the serializer fills: [fieldMap[field.Key] = field.Value] for
    each field in turn. *)
Definition fieldMap (fields : list Field) : gmap string any :=
  foldl (λ m field, <[Key field := Value field]> m) ∅ fields.

(** The block returned when [MarshalIndent] fails. *)
Definition marshalFailure (err : json.error) : string :=
  "  {" +:+ single LF
  +:+ "    " +:+ single DQUOTE +:+ "error" +:+ single DQUOTE +:+ ": "
  +:+ single DQUOTE +:+ "failed to marshal fields: " +:+ json.Error err
  +:+ single DQUOTE +:+ single LF
  +:+ "  }".

(** [func (mk *MakLogger) formatFieldsAsJSON(fields []Field) string] *)
Definition formatFieldsAsJSON (mk : MakLogger) (fields : list Field) : string :=
  if (length fields =? 0)%nat then EmptyString
  else
    match json.MarshalIndent (VMap (fieldMap fields)) "  " "  " with
    | json.Err err => marshalFailure err
    | json.Ok jsonBytes =>
        let lines := Split jsonBytes LF in
        Join (map (λ line, "  " +:+ line) lines) (single LF)
    end.

(** [func (mk *MakLogger) log(level Level, color Color, msg string, fields ...Field)] *)
Definition log (mk : MakLogger) (rt : Runtime) (level : Level) (color : Color)
    (msg : string) (fields : list Field) (out : Stdout) : Stdout :=
  let '(file, line, fn) := getCallerInfo rt 3 in
  let timestamp := time.Format (Now rt) in
  let moduleParts := Split fn "."%char in
  let shortFn :=
    match last moduleParts with
    | Some part => part
    | None => fn
    end in
  let en := colorsEnabled mk in
  let module :=
    ColorizeIfEnabled "📁" en BrightBlue [] +:+ " "
    +:+ ColorizeIfEnabled file en Cyan [] +:+ ":"
    +:+ ColorizeIfEnabled (Itoa line) en BrightCyan [] +:+ " "
    +:+ ColorizeIfEnabled "⚡" en BrightYellow [] +:+ " "
    +:+ ColorizeIfEnabled shortFn en Magenta [] in
  let message :=
    ColorizeIfEnabled "🕒 " en BrightGreen [] +:+ " "
    +:+ ColorizeIfEnabled timestamp en Green [] +:+ " │ "
    +:+ getColoredLevel mk level +:+ " │ "
    +:+ module +:+ " │ "
    +:+ ColorizeIfEnabled "💬 " en BrightWhite [] +:+ " "
    +:+ getColoredMessage mk level msg in
  let out := fmt.Println message out in
  if (0 <? length fields)%nat then
    let fieldStr := formatFieldsAsJSON mk fields in
    fmt.Printf
      (ColorizeIfEnabled "📊 " en BrightMagenta [] +:+ " "
       +:+ ColorizeIfEnabled "Fields:" en BrightWhite [] +:+ single LF
       +:+ ColorizeIfEnabled fieldStr en BrightBlack [] +:+ single LF)
      out
  else out.

Definition Info (mk : MakLogger) (rt : Runtime) (msg : string)
    (fields : list Field) : Stdout → Stdout :=
  log mk rt LevelInfo Yellow msg fields.

Definition Warn (mk : MakLogger) (rt : Runtime) (msg : string)
    (fields : list Field) : Stdout → Stdout :=
  log mk rt LevelWarn Yellow msg fields.

Definition Error (mk : MakLogger) (rt : Runtime) (msg : string)
    (fields : list Field) : Stdout → Stdout :=
  log mk rt LevelError Red msg fields.

Definition Success (mk : MakLogger) (rt : Runtime) (msg : string)
    (fields : list Field) : Stdout → Stdout :=
  log mk rt LevelSuccess Red msg fields.

Definition Debug (mk : MakLogger) (rt : Runtime) (msg : string)
    (fields : list Field) : Stdout → Stdout :=
  log mk rt LevelDebug Red msg fields.

Definition Critical (mk : MakLogger) (rt : Runtime) (msg : string)
    (fields : list Field) : Stdout → Stdout :=
  log mk rt LevelCritical Red msg fields.

(** ** Vocabulary of the specification *)

(** The presentation table: for each level of the fixed set, its icon and
    its label as they are printed. *)
Definition levelTable : list (Level * string * string) :=
  [ (LevelInfo, "📝 ", "INFO    ");
    (LevelSuccess, "✅ ", "SUCCESS ");
    (LevelDebug, "🐛 ", "DEBUG   ");
    (LevelWarn, "⚠️ ", "WARNING ");
    (LevelError, "❌ ", "ERROR   ");
    (LevelCritical, "🛑 ", "CRITICAL") ].

(** The location segment without colors: folder icon, file, colon, line,
    lightning icon, function. *)
Definition plainLocation (file : string) (line : Z) (fn : string) : string :=
  "📁" +:+ " " +:+ file +:+ ":" +:+ Itoa line +:+ " " +:+ "⚡" +:+ " " +:+ fn.

(** The location segment as the renderer colors it. *)
Definition locationSegment (enabled : bool) (file : string) (line : Z)
    (fn : string) : string :=
  ColorizeIfEnabled "📁" enabled BrightBlue [] +:+ " "
  +:+ ColorizeIfEnabled file enabled Cyan [] +:+ ":"
  +:+ ColorizeIfEnabled (Itoa line) enabled BrightCyan [] +:+ " "
  +:+ ColorizeIfEnabled "⚡" enabled BrightYellow [] +:+ " "
  +:+ ColorizeIfEnabled fn enabled Magenta [].

(** The function name as displayed: its last dot-delimited segment. *)
Definition shortName (fn : string) : string :=
  default fn (last (Split fn "."%char)).

(** The levels of the fixed set. *)
Definition fixedLevels : list Level :=
  [LevelInfo; LevelSuccess; LevelDebug; LevelWarn; LevelError; LevelCritical].

(** The line of the specification, colors disabled: clock icon and
    timestamp, level segment, location segment, speech bubble and message,
    separated by [" │ "] and closed by a line feed. *)
Definition plainLine (timestamp levelSegment location msg : string) : string :=
  ("🕒 " +:+ " " +:+ timestamp) +:+ " │ " +:+ levelSegment +:+ " │ "
  +:+ location +:+ " │ " +:+ ("💬 " +:+ " " +:+ msg) +:+ single LF.

(** The second write of a rendering call: chart icon, label, line feed,
    the serialized block in gray, line feed. *)
Definition fieldsWrite (mk : MakLogger) (fields : list Field) : string :=
  ColorizeIfEnabled "📊 " (colorsEnabled mk) BrightMagenta [] +:+ " "
  +:+ ColorizeIfEnabled "Fields:" (colorsEnabled mk) BrightWhite []
  +:+ single LF
  +:+ ColorizeIfEnabled (formatFieldsAsJSON mk fields) (colorsEnabled mk)
        BrightBlack []
  +:+ single LF.

(** The middle line of the block returned when [MarshalIndent] fails: the
    key ["error"] after four spaces, and as its value the description of
    the failure, as [%v] prints it. *)
Definition errorLine (err : json.error) : string :=
  "    " +:+ single DQUOTE +:+ "error" +:+ single DQUOTE +:+ ": "
  +:+ single DQUOTE +:+ "failed to marshal fields: " +:+ json.Error err
  +:+ single DQUOTE.

(** A field sequence with duplicate keys collapsed to their last
    occurrence. *)
Fixpoint collapseLast (fields : list Field) : list Field :=
  match fields with
  | [] => []
  | f :: rest =>
      if bool_decide (Key f ∈ Key <$> rest) then collapseLast rest
      else f :: collapseLast rest
  end.

(** The value of the last field of the sequence whose key is [k]. *)
Fixpoint lastValue (k : string) (fields : list Field) : option any :=
  match fields with
  | [] => None
  | f :: rest =>
      match lastValue k rest with
      | Some v => Some v
      | None => if decide (Key f = k) then Some (Value f) else None
      end
  end.

(** [text] with [prefix] inserted after each of its line feeds. *)
Fixpoint shiftLines (prefix text : string) : string :=
  match text with
  | EmptyString => EmptyString
  | String c rest =>
      if Ascii.eqb c LF then String c (prefix +:+ shiftLines prefix rest)
      else String c (shiftLines prefix rest)
  end.

(** The last line of [text]. *)
Definition lastLine (text : string) : string :=
  default EmptyString (last (Split text LF)).

(** Strictly increasing keys, compared byte by byte. *)
Definition keyLt (k1 k2 : string) : Prop := String.le k1 k2 ∧ k1 ≠ k2.

(** ** Sample inputs *)

Definition sampleTime : time.Time := {|
  time.Year := 2025; time.Month := 9; time.Day := 2;
  time.Hour := 15; time.Minute := 30; time.Second := 45;
  time.Nanosecond := 123456789
|}.

(** A call of [main.main] at [main.go:15] through one of the six entry
    points. *)
Definition sampleRuntime : Runtime := {|
  Caller := λ skip,
    if skip =? 3
    then Some {| pc := 4198400; file := "/home/dev/app/main.go"; line := 15 |}
    else None;
  FuncForPC := λ p, if p =? 4198400 then Some "main.main" else None;
  Now := sampleTime
|}.

(** A runtime whose stack walk finds no frame at all. *)
Definition shallowRuntime : Runtime := {|
  Caller := λ _, None;
  FuncForPC := λ _, None;
  Now := sampleTime
|}.

Definition plainLogger : MakLogger := {| colorsEnabled := false |}.
Definition colorLogger : MakLogger := {| colorsEnabled := true |}.

(** A message that carries an escape sequence of its own. *)
Definition redMessage : string := String ESC "[31mred".

Definition fieldX1 : Field := {| Key := "x"; Value := VInt 1 |}.
Definition fieldA1 : Field := {| Key := "a"; Value := VInt 1 |}.
Definition fieldA2 : Field := {| Key := "a"; Value := VInt 2 |}.
Definition fieldB1 : Field := {| Key := "b"; Value := VInt 1 |}.
Definition fieldB2 : Field := {| Key := "b"; Value := VInt 2 |}.
Definition fieldChan : Field := {| Key := "ch"; Value := VUnsupported "chan int" |}.

(** Values of a type [Probe] of package [main] whose [MarshalJSON] returns
    [errors.New("boom\nmore")], and [errors.New("\x1b[31mboom")]. *)
Definition fieldProbe : Field :=
  {| Key := "probe";
     Value := VMarshaler "main.Probe" ("boom" +:+ single LF +:+ "more") |}.
Definition fieldEscape : Field :=
  {| Key := "probe";
     Value := VMarshaler "main.Probe" (String ESC "[31mboom") |}.

(** The value of [TestComplexFieldValues]: a nested map and a slice. *)
Definition complexValue : any :=
  VMap (<["nested" :=
            VMap (<["key" := VString "value"]> (<["number" := VInt 42]> ∅))]>
          (<["array" := VSlice [VString "item1"; VString "item2"]]> ∅)).

(** ** The console of the host, as [NewLogger] sees it *)

(** The outcome of a call through [LazyProc.Call]: the first result of the
    procedure, or a panic when the procedure cannot be loaded. *)
Inductive call (A : Type) : Type :=
| Returns (a : A)
| Panics.
Global Arguments Returns {A} a.
Global Arguments Panics {A}.

(** The platform: [runtime.GOOS] and the three procedures of
    [kernel32.dll] the logger calls.  [GetConsoleMode handle] gives the
    result of the call and the mode it stores through the pointer it
    receives. *)
Record Console : Type := {
  GOOS : string;
  GetStdHandle : Z → call Z;
  GetConsoleMode : Z → call (Z * Z);
  SetConsoleMode : Z → Z → call Z
}.

(** [^uintptr(10)] on a 64-bit word. *)
Definition STD_OUTPUT_HANDLE : Z := Z.lxor (Z.ones 64) 10.

Definition ENABLE_VIRTUAL_TERMINAL_PROCESSING : Z := 4.

(** [func (mk *MakLogger) enableWindowsANSI()].  A panic of one of the
    calls is recovered by the deferred function, which disables colors. *)
Definition enableWindowsANSI (os : Console) (mk : MakLogger) : MakLogger :=
  if negb (String.eqb (GOOS os) "windows") then mk
  else
    match GetStdHandle os STD_OUTPUT_HANDLE with
    | Panics => {| colorsEnabled := false |}
    | Returns handle =>
        match GetConsoleMode os handle with
        | Panics => {| colorsEnabled := false |}
        | Returns (ret, mode) =>
            if ret =? 0 then {| colorsEnabled := false |}
            else
              let mode := Z.lor mode ENABLE_VIRTUAL_TERMINAL_PROCESSING in
              match SetConsoleMode os handle mode with
              | Panics => {| colorsEnabled := false |}
              | Returns ret =>
                  if ret =? 0 then {| colorsEnabled := false |} else mk
              end
        end
    end.

(** [func NewLogger() *MakLogger] *)
Definition NewLogger (os : Console) : MakLogger :=
  let logger := {| colorsEnabled := true |} in
  if String.eqb (GOOS os) "windows" then enableWindowsANSI os logger
  else logger.

(** ** Vocabulary of the added properties *)

(** The colors [colors.go] declares. *)
Definition palette : list Color :=
  [ Reset; Bold; Dim; Italic; Underline; Blink; Inverse; Hidden;
    Strikethrough; BoldWhite; Gray; DarkGray;
    Black; Red; Green; Yellow; Blue; Magenta; Cyan; White;
    BrightBlack; BrightRed; BrightGreen; BrightYellow; BrightBlue;
    BrightMagenta; BrightCyan; BrightWhite;
    BgBlack; BgRed; BgGreen; BgYellow; BgBlue; BgMagenta; BgCyan; BgWhite;
    BgBrightBlack; BgBrightRed; BgBrightGreen; BgBrightYellow;
    BgBrightBlue; BgBrightMagenta; BgBrightCyan; BgBrightWhite ].

(** [text] without its control sequences: what a terminal shows.  A
    sequence runs from an escape byte to the next [m]; [inside] tells
    whether [text] starts in the middle of one. *)
Fixpoint stripEscapes (inside : bool) (text : string) : string :=
  match text with
  | EmptyString => EmptyString
  | String c rest =>
      if inside then stripEscapes (negb (Ascii.eqb c "m")) rest
      else if Ascii.eqb c ESC then stripEscapes true rest
      else String c (stripEscapes false rest)
  end.

(** Is a control sequence left open at the end of [text]? *)
Fixpoint escapeOpen (inside : bool) (text : string) : bool :=
  match text with
  | EmptyString => inside
  | String c rest =>
      if inside then escapeOpen (negb (Ascii.eqb c "m")) rest
      else escapeOpen (Ascii.eqb c ESC) rest
  end.

(** [shown] is what remains of [text] once its control sequences are
    removed, and [text] leaves no sequence open. *)
Definition strips (text shown : string) : Prop :=
  stripEscapes false text = shown ∧ escapeOpen false text = false.

(** The number of nodes of a value. *)
Fixpoint anySize (v : any) : nat :=
  match v with
  | VSlice xs => S (foldr (λ x acc, anySize x + acc)%nat 0%nat xs)
  | VMap m => S (map_fold (λ _ x acc, anySize x + acc)%nat 0%nat m)
  | _ => 1%nat
  end.

(** The six entry points with the label each one prints. *)
Definition entryPoints
    : list ((MakLogger → Runtime → string → list Field → Stdout → Stdout)
            * Level * string) :=
  [ (Info, LevelInfo, "INFO    ");
    (Warn, LevelWarn, "WARNING ");
    (Error, LevelError, "ERROR   ");
    (Success, LevelSuccess, "SUCCESS ");
    (Debug, LevelDebug, "DEBUG   ");
    (Critical, LevelCritical, "CRITICAL") ].

(** A Windows console that accepts the virtual-terminal mode, one that
    refuses it, and a host that is not Windows. *)
Definition windowsConsole : Console := {|
  GOOS := "windows";
  GetStdHandle := λ _, Returns 84;
  GetConsoleMode := λ handle, if handle =? 84 then Returns (1, 3) else Returns (0, 0);
  SetConsoleMode := λ handle mode, Returns (if mode =? 7 then 1 else 0)
|}.

Definition legacyConsole : Console := {|
  GOOS := "windows";
  GetStdHandle := λ _, Returns 84;
  GetConsoleMode := λ _, Returns (1, 3);
  SetConsoleMode := λ _ _, Panics
|}.

Definition linuxHost : Console := {|
  GOOS := "linux";
  GetStdHandle := λ _, Panics;
  GetConsoleMode := λ _, Panics;
  SetConsoleMode := λ _ _, Panics
|}.

(** * Properties *)

(** ** Byte strings *)

Lemma append_nil_l (s : string) : EmptyString +:+ s = s.
Proof. reflexivity. Qed.

Lemma append_cons (c : ascii) (s t : string) :
  String c s +:+ t = String c (s +:+ t).
Proof. reflexivity. Qed.

Lemma append_nil_r (s : string) : s +:+ EmptyString = s.
Proof. induction s as [|c s IH]; [done|]. by rewrite append_cons, IH. Qed.

Lemma append_assoc (s t u : string) : (s +:+ t) +:+ u = s +:+ t +:+ u.
Proof. induction s as [|c s IH]; [done|]. by rewrite !append_cons, IH. Qed.

Lemma length_append (s t : string) :
  String.length (s +:+ t) = (String.length s + String.length t)%nat.
Proof. induction s as [|c s IH]; [done|]. rewrite append_cons. simpl. by rewrite IH. Qed.

Lemma HasPrefix_app (p q : string) : HasPrefix (p +:+ q) p = true.
Proof.
  induction p as [|c p IH]; [done|].
  rewrite append_cons. simpl. by rewrite Ascii.eqb_refl.
Qed.

Lemma Contains_HasPrefix (s t : string) :
  HasPrefix s t = true → Contains s t = true.
Proof. destruct s; simpl; intros ->; done. Qed.

Lemma Contains_app_r (p s t : string) :
  Contains s t = true → Contains (p +:+ s) t = true.
Proof.
  intros H. induction p as [|c p IH]; [done|].
  rewrite append_cons. simpl. rewrite IH. apply orb_true_r.
Qed.

Lemma HasPrefix_app_l (s t q : string) :
  HasPrefix s t = true → HasPrefix (s +:+ q) t = true.
Proof.
  revert s. induction t as [|c t IH]; intros s; simpl; [done|].
  destruct s as [|b s]; [done|]. rewrite append_cons.
  destruct (Ascii.eqb c b); [apply IH|done].
Qed.

Lemma Contains_app_l (s t q : string) :
  Contains s t = true → Contains (s +:+ q) t = true.
Proof.
  induction s as [|b s IH].
  - simpl. rewrite orb_false_r. intros H.
    apply Contains_HasPrefix. by apply (HasPrefix_app_l EmptyString).
  - rewrite append_cons. simpl. intros [H|H]%orb_true_iff.
    + apply (HasPrefix_app_l (String b s) t q) in H.
      rewrite append_cons in H. by rewrite H.
    + rewrite (IH H). apply orb_true_r.
Qed.

Lemma Contains_refl (s : string) : Contains s s = true.
Proof.
  apply Contains_HasPrefix. rewrite <-(append_nil_r s) at 1. apply HasPrefix_app.
Qed.

Lemma Contains_infix (p t q : string) : Contains (p +:+ t +:+ q) t = true.
Proof. apply Contains_app_r, Contains_HasPrefix, HasPrefix_app. Qed.

Lemma hasByte_app (c : ascii) (s t : string) :
  hasByte c (s +:+ t) = hasByte c s || hasByte c t.
Proof.
  induction s as [|b s IH]; [done|].
  rewrite append_cons. simpl. by rewrite IH, orb_assoc.
Qed.

Lemma Contains_hasByte (c : ascii) (s : string) :
  Contains s (single c) = hasByte c s.
Proof.
  induction s as [|b s IH]; simpl; [done|].
  rewrite IH, (Ascii.eqb_sym c b). by destruct (Ascii.eqb b c).
Qed.

(** ** colors.go *)

(** C4. [ColorizeIfEnabled] with [enabled = false] returns the text
    unchanged; with [enabled = true] it returns the foreground escape, the
    background escape when one is given, the text and the reset escape, a
    string that differs from the text and contains it. *)
Theorem ColorizeIfEnabled_gate (text : string) (fg : Color) (bg : list Color) :
  ColorizeIfEnabled text false fg bg = text
  ∧ ColorizeIfEnabled text true fg bg
    = fg +:+ default EmptyString (head bg) +:+ text +:+ Reset
  ∧ ColorizeIfEnabled text true fg bg ≠ text
  ∧ Contains (ColorizeIfEnabled text true fg bg) text = true.
Proof.
  assert (ColorizeIfEnabled text true fg bg
          = fg +:+ default EmptyString (head bg) +:+ text +:+ Reset) as Hon.
  { unfold ColorizeIfEnabled, Colorize. by destruct bg. }
  split_and!; [done|done|..]; rewrite Hon.
  - intros Heq. apply (f_equal String.length) in Heq.
    rewrite !length_append in Heq. simpl in Heq. lia.
  - rewrite <-(append_assoc fg). apply Contains_infix.
Qed.

(** C10. [Gray] and [BrightBlack] are the same escape sequence, so
    colorizing with one or the other gives the same bytes. *)
Theorem Gray_is_BrightBlack (text : string) (enabled : bool) (bg : list Color) :
  Gray = esc "[90m" ∧ BrightBlack = esc "[90m"
  ∧ Colorize text Gray bg = Colorize text BrightBlack bg
  ∧ ColorizeIfEnabled text enabled Gray bg
    = ColorizeIfEnabled text enabled BrightBlack bg.
Proof. done. Qed.

(** ** Numbers and timestamps carry no escape byte *)

Lemma hasByte_ESC_uint (d : Decimal.uint) :
  hasByte ESC (NilEmpty.string_of_uint d) = false.
Proof. induction d; simpl; done. Qed.

Lemma hasByte_ESC_Itoa (i : Z) : hasByte ESC (Itoa i) = false.
Proof.
  unfold Itoa. destruct (Z.to_int i) as [d|d]; simpl.
  - destruct d; simpl; try done; apply hasByte_ESC_uint.
  - destruct d; simpl; try done; apply hasByte_ESC_uint.
Qed.

Lemma hasByte_Repeat (c : ascii) (s : string) (n : nat) :
  hasByte c s = false → hasByte c (Repeat s n) = false.
Proof.
  intros Hs. induction n as [|n IH]; simpl; [done|].
  by rewrite hasByte_app, Hs, IH.
Qed.

Lemma hasByte_ESC_appendInt (x : Z) (width : nat) :
  hasByte ESC (time.appendInt x width) = false.
Proof.
  unfold time.appendInt. rewrite !hasByte_app, hasByte_ESC_Itoa.
  rewrite hasByte_Repeat by done. by destruct (x <? 0).
Qed.

Lemma hasByte_ESC_Format (t : time.Time) : hasByte ESC (time.Format t) = false.
Proof.
  unfold time.Format. by rewrite !hasByte_app, !hasByte_ESC_appendInt.
Qed.

(** ** The line renderer *)

Lemma ColorizeIfEnabled_off (text : string) (fg : Color) (bg : list Color) :
  ColorizeIfEnabled text false fg bg = text.
Proof. done. Qed.

Lemma elem_of_levelTable (level : Level) (icon label : string) :
  (level, icon, label) ∈ levelTable →
  getColoredLevel {| colorsEnabled := false |} level = icon +:+ " " +:+ label
  ∧ ∀ msg, getColoredMessage {| colorsEnabled := false |} level msg = msg.
Proof.
  unfold levelTable. intros H.
  repeat (apply elem_of_cons in H as [H|H]; [by simplify_eq|]).
  by apply elem_of_nil in H.
Qed.

Lemma hasByte_ESC_levelTable (level : Level) (icon label : string) :
  (level, icon, label) ∈ levelTable →
  hasByte ESC icon = false ∧ hasByte ESC label = false.
Proof.
  unfold levelTable. intros H.
  repeat (apply elem_of_cons in H as [H|H]; [by simplify_eq|]).
  by apply elem_of_nil in H.
Qed.

Lemma locationSegment_off (file : string) (line : Z) (fn : string) :
  locationSegment false file line fn = plainLocation file line fn.
Proof. done. Qed.

(** The two writes of [log], the caller being resolved. *)
Lemma log_unfold (mk : MakLogger) (rt : Runtime) (level : Level)
    (color : Color) (msg : string) (fields : list Field) (out : Stdout)
    (file : string) (line : Z) (fn : string) :
  getCallerInfo rt 3 = (file, line, fn) →
  log mk rt level color msg fields out
  = out ++
    (ColorizeIfEnabled "🕒 " (colorsEnabled mk) BrightGreen [] +:+ " "
     +:+ ColorizeIfEnabled (time.Format (Now rt)) (colorsEnabled mk) Green []
     +:+ " │ " +:+ getColoredLevel mk level +:+ " │ "
     +:+ locationSegment (colorsEnabled mk) file line (shortName fn)
     +:+ " │ " +:+ ColorizeIfEnabled "💬 " (colorsEnabled mk) BrightWhite []
     +:+ " " +:+ getColoredMessage mk level msg +:+ single LF)
    :: match fields with
       | [] => []
       | _ :: _ => [fieldsWrite mk fields]
       end.
Proof.
  intros Hci. unfold log. rewrite Hci. cbv zeta.
  unfold fmt.Println, fmt.Printf, fieldsWrite, locationSegment, shortName.
  rewrite !append_assoc.
  destruct fields as [|f fields]; simpl length; cbn [Nat.ltb Nat.leb].
  - done.
  - rewrite <-(assoc_L (++)). done.
Qed.

Lemma getCallerInfo_total (rt : Runtime) (skip : Z) :
  ∃ file line fn, getCallerInfo rt skip = (file, line, fn).
Proof. destruct (getCallerInfo rt skip) as [[file line] fn]. eauto. Qed.

Ltac contains_piece :=
  repeat first
    [ apply Contains_HasPrefix, HasPrefix_app
    | apply Contains_app_r ].

Lemma fixedLevels_levelTable (level : Level) :
  level ∈ fixedLevels → ∃ icon label, (level, icon, label) ∈ levelTable.
Proof.
  unfold fixedLevels, levelTable. intros H.
  repeat (apply elem_of_cons in H as [->|H];
          [do 2 eexists; repeat first [left; reflexivity | right]|]).
  by apply elem_of_nil in H.
Qed.

(** C1, amended. With colors disabled and a level of the fixed set, [log]
    first writes the text made of the clock icon and the timestamp, the
    level segment, the location segment, and the speech bubble followed by
    the message, separated by [" │ "] and closed by a line feed.  That
    text contains the label of the level and the message, and it holds an
    escape byte only where the message or the file or function name of the
    caller holds one: the renderer adds none. *)
Theorem log_plain_line (mk : MakLogger) (rt : Runtime) (level : Level)
    (color : Color) (msg : string) (fields : list Field) (out : Stdout)
    (file : string) (line : Z) (fn : string) :
  level ∈ fixedLevels →
  getCallerInfo rt 3 = (file, line, fn) →
  ∃ icon label,
    (level, icon, label) ∈ levelTable
    ∧ let written :=
        plainLine (time.Format (Now rt)) (icon +:+ " " +:+ label)
          (plainLocation file line (shortName fn)) msg in
      log (SetColorsEnabled mk false) rt level color msg fields out
      = out ++ written
          :: match fields with
             | [] => []
             | _ :: _ => [fieldsWrite (SetColorsEnabled mk false) fields]
             end
      ∧ Contains written label = true
      ∧ Contains written msg = true
      ∧ hasByte ESC written
        = hasByte ESC file || hasByte ESC (shortName fn) || hasByte ESC msg.
Proof.
  intros Hlevel Hci.
  destruct (fixedLevels_levelTable _ Hlevel) as (icon & label & Hin).
  exists icon, label. split; [done|]. intros written.
  destruct (elem_of_levelTable _ _ _ Hin) as [Hl Hm].
  destruct (hasByte_ESC_levelTable _ _ _ Hin) as [Hicon Hlabel].
  split_and!.
  - rewrite (log_unfold _ _ _ _ _ _ _ _ _ _ Hci).
    unfold SetColorsEnabled. cbn [colorsEnabled].
    rewrite Hl, Hm, !ColorizeIfEnabled_off, locationSegment_off.
    unfold written, plainLine. by rewrite !append_assoc.
  - unfold written, plainLine. rewrite !append_assoc. contains_piece.
  - unfold written, plainLine. rewrite !append_assoc. contains_piece.
  - unfold written, plainLine, plainLocation.
    rewrite !hasByte_app, hasByte_ESC_Format, hasByte_ESC_Itoa, Hicon, Hlabel.
    simpl. by rewrite !orb_false_r.
Qed.

Lemma log_plain_line_witness :
  LevelWarn ∈ fixedLevels
  ∧ getCallerInfo sampleRuntime 3 = ("main.go", 15, "main.main")
  ∧ ∃ icon label,
      (LevelWarn, icon, label) ∈ levelTable
      ∧ Warn (SetColorsEnabled colorLogger false) sampleRuntime
          "disk almost full" [] []
        = [plainLine "2025-09-02 15:30:45.123" (icon +:+ " " +:+ label)
             (plainLocation "main.go" 15 "main") "disk almost full"].
Proof.
  assert (LevelWarn ∈ fixedLevels) as Hlevel
    by (unfold fixedLevels; repeat constructor).
  assert (getCallerInfo sampleRuntime 3 = ("main.go", 15, "main.main")) as Hci
    by reflexivity.
  split_and!; [exact Hlevel|exact Hci|].
  destruct (log_plain_line colorLogger sampleRuntime LevelWarn Yellow
              "disk almost full" [] [] _ _ _ Hlevel Hci)
    as (icon & label & Hin & Hlog & _).
  exists icon, label. exact (conj Hin Hlog).
Defined.

(** C1 as written fails on a message that carries an escape sequence: the
    line printed with colors disabled holds the message unchanged, and
    with it its escape byte. *)
Lemma log_plain_escape_counterexample :
  LevelInfo ∈ fixedLevels
  ∧ colorsEnabled plainLogger = false
  ∧ ∃ written,
      Info plainLogger sampleRuntime redMessage [] [] = [written]
      ∧ written
        = plainLine "2025-09-02 15:30:45.123" ("📝 " +:+ " " +:+ "INFO    ")
            (plainLocation "main.go" 15 "main") redMessage
      ∧ Contains written (single ESC) = true
      ∧ hasByte ESC written = true.
Proof.
  split; [unfold fixedLevels; repeat constructor|]. split; [reflexivity|].
  eexists. split; [vm_compute; reflexivity|].
  split_and!; vm_compute; reflexivity.
Qed.

(** The line is written whatever the fields are; the block of the fields
    is a second write, issued when the sequence is not empty. *)
Lemma log_writes (mk : MakLogger) (rt : Runtime) (level : Level)
    (color : Color) (msg : string) :
  ∃ written, ∀ fields out,
    log mk rt level color msg fields out
    = out ++ written
        :: match fields with
           | [] => []
           | _ :: _ => [fieldsWrite mk fields]
           end.
Proof.
  destruct (getCallerInfo_total rt 3) as (file & line & fn & Hci).
  eexists. intros fields out. by rewrite (log_unfold _ _ _ _ _ _ _ _ _ _ Hci).
Qed.

Lemma fixedLevels_eqb (level : Level) :
  level ∉ fixedLevels →
  (level =? LevelInfo) = false ∧ (level =? LevelSuccess) = false
  ∧ (level =? LevelDebug) = false ∧ (level =? LevelCritical) = false
  ∧ (level =? LevelError) = false ∧ (level =? LevelWarn) = false.
Proof.
  unfold fixedLevels. intros Hout.
  split_and!; apply Z.eqb_neq; intros ->; apply Hout; set_solver.
Qed.

(** C5. A level outside the fixed set renders ["UNDEFINED"] as its tag and
    as its message, and the line is written all the same. *)
Theorem log_undefined_level (mk : MakLogger) (rt : Runtime) (level : Level)
    (color : Color) (msg : string) (fields : list Field) (out : Stdout) :
  level ∉ fixedLevels →
  getColoredLevel mk level = "UNDEFINED"
  ∧ getColoredMessage mk level msg = "UNDEFINED"
  ∧ ∃ stamp location rest,
      log mk rt level color msg fields out
      = out ++
        (stamp +:+ " │ " +:+ "UNDEFINED" +:+ " │ " +:+ location +:+ " │ "
         +:+ ColorizeIfEnabled "💬 " (colorsEnabled mk) BrightWhite []
         +:+ " " +:+ "UNDEFINED" +:+ single LF) :: rest.
Proof.
  intros (H0 & H1 & H2 & H3 & H4 & H5)%fixedLevels_eqb.
  assert (getColoredLevel mk level = "UNDEFINED") as Hl.
  { unfold getColoredLevel. by rewrite H0, H1, H2, H3, H4, H5. }
  assert (getColoredMessage mk level msg = "UNDEFINED") as Hm.
  { unfold getColoredMessage. by rewrite H0, H1, H2, H3, H4, H5. }
  split_and!; [done..|].
  destruct (getCallerInfo_total rt 3) as (file & line & fn & Hci).
  rewrite (log_unfold _ _ _ _ _ _ _ _ _ _ Hci), Hl, Hm.
  exists (ColorizeIfEnabled "🕒 " (colorsEnabled mk) BrightGreen [] +:+ " "
          +:+ ColorizeIfEnabled (time.Format (Now rt)) (colorsEnabled mk)
                Green []),
    (locationSegment (colorsEnabled mk) file line (shortName fn)).
  eexists. rewrite !append_assoc. reflexivity.
Qed.

Lemma log_undefined_level_witness :
  (7 ∉ fixedLevels)
  ∧ getColoredLevel plainLogger 7 = "UNDEFINED"
  ∧ getColoredMessage plainLogger 7 "lost" = "UNDEFINED".
Proof.
  assert (7 ∉ fixedLevels) as Hout.
  { unfold fixedLevels. intros H.
    repeat (apply elem_of_cons in H as [H|H]; [discriminate H|]).
    by apply elem_of_nil in H. }
  split; [exact Hout|].
  destruct (log_undefined_level plainLogger sampleRuntime 7 Red "lost" [] []
              Hout) as (Hl & Hm & _).
  exact (conj Hl Hm).
Defined.

(** C6. When the stack walk finds no frame at the requested depth,
    [getCallerInfo] returns the triple [("???", 0, "???")]; [log], which
    asks for depth 3, then prints that triple in the location segment. *)
Theorem getCallerInfo_sentinel (rt : Runtime) (skip : Z) :
  Caller rt skip = None →
  getCallerInfo rt skip = ("???", 0, "???")
  ∧ (skip = 3 → ∀ mk level color msg fields out,
       ∃ stamp message rest,
         log mk rt level color msg fields out
         = out ++
           (stamp +:+ " │ " +:+ getColoredLevel mk level +:+ " │ "
            +:+ locationSegment (colorsEnabled mk) "???" 0 "???"
            +:+ " │ " +:+ message +:+ single LF) :: rest).
Proof.
  intros Hnone.
  assert (getCallerInfo rt skip = ("???", 0, "???")) as Hci.
  { unfold getCallerInfo. by rewrite Hnone. }
  split; [done|]. intros -> mk level color msg fields out.
  rewrite (log_unfold _ _ _ _ _ _ _ _ _ _ Hci).
  exists (ColorizeIfEnabled "🕒 " (colorsEnabled mk) BrightGreen [] +:+ " "
          +:+ ColorizeIfEnabled (time.Format (Now rt)) (colorsEnabled mk)
                Green []),
    (ColorizeIfEnabled "💬 " (colorsEnabled mk) BrightWhite [] +:+ " "
     +:+ getColoredMessage mk level msg).
  eexists. rewrite !append_assoc. reflexivity.
Qed.

Lemma getCallerInfo_sentinel_witness :
  Caller shallowRuntime 3 = None
  ∧ getCallerInfo shallowRuntime 3 = ("???", 0, "???").
Proof.
  split; [reflexivity|].
  exact (proj1 (getCallerInfo_sentinel shallowRuntime 3 eq_refl)).
Defined.

(** ** Lines: [Split], [Join] and the block-level indentation *)

Lemma Split_nonempty (s : string) (sep : ascii) : Split s sep ≠ [].
Proof.
  induction s as [|c s IH]; simpl; [done|].
  destruct (Ascii.eqb c sep); [done|]. by destruct (Split s sep).
Qed.

Lemma single_append (c : ascii) (s : string) : single c +:+ s = String c s.
Proof. done. Qed.

Lemma Split_no_sep (s : string) (sep : ascii) :
  hasByte sep s = false → Split s sep = [s].
Proof.
  induction s as [|c s IH]; simpl; [done|].
  intros [Hc Hs]%orb_false_elim. by rewrite Hc, IH.
Qed.

Lemma Split_app_sep (s t : string) (sep : ascii) :
  Split (s +:+ String sep t) sep = Split s sep ++ Split t sep.
Proof.
  induction s as [|c s IH].
  - rewrite append_nil_l. simpl. by rewrite Ascii.eqb_refl.
  - rewrite append_cons. simpl. rewrite IH.
    destruct (Ascii.eqb c sep); [done|].
    pose proof (Split_nonempty s sep). by destruct (Split s sep).
Qed.

Lemma Join_cons (e e' : string) (rest : list string) (sep : string) :
  Join (e :: e' :: rest) sep = e +:+ sep +:+ Join (e' :: rest) sep.
Proof. done. Qed.

Lemma Split_sep_free (s : string) (sep : ascii) :
  Forall (λ w, hasByte sep w = false) (Split s sep).
Proof.
  induction s as [|c s IH]; simpl; [by repeat constructor|].
  destruct (Ascii.eqb c sep) eqn:Hc; [by constructor|].
  destruct IH as [|w ws Hw Hws]; [by repeat constructor; simpl; rewrite Hc|].
  constructor; [|done]. simpl. by rewrite Hc.
Qed.

Lemma Split_Join (lines : list string) (sep : ascii) :
  lines ≠ [] → Forall (λ w, hasByte sep w = false) lines →
  Split (Join lines (single sep)) sep = lines.
Proof.
  induction lines as [|w rest IH]; [done|]. intros _ Hfree.
  apply Forall_cons in Hfree as [Hw Hrest].
  destruct rest as [|w' rest]; [by apply Split_no_sep|].
  rewrite Join_cons, single_append, Split_app_sep.
  by rewrite (Split_no_sep _ _ Hw), IH.
Qed.

Lemma shiftLines_app (p s t : string) :
  shiftLines p (s +:+ t) = shiftLines p s +:+ shiftLines p t.
Proof.
  induction s as [|c s IH]; [done|].
  rewrite append_cons. simpl. rewrite IH.
  destruct (Ascii.eqb c LF); by rewrite ?append_cons, ?append_assoc.
Qed.

Lemma shiftLines_id (p s : string) : hasByte LF s = false → shiftLines p s = s.
Proof.
  induction s as [|c s IH]; simpl; [done|].
  intros [Hc Hs]%orb_false_elim. rewrite Hc. by rewrite IH.
Qed.

Lemma shiftLines_Join (p sep : string) (elems : list string) :
  shiftLines p (Join elems sep) = Join (shiftLines p <$> elems) (shiftLines p sep).
Proof.
  induction elems as [|e rest IH]; [done|].
  destruct rest as [|e' rest]; [done|].
  rewrite !fmap_cons in *. rewrite !Join_cons, !shiftLines_app.
  by rewrite IH.
Qed.

(** Prefixing every line of [text] with [p] is the same as writing [p] and
    then [text] with [p] after each line feed. *)
Lemma Join_Split_shiftLines (p text : string) :
  Join ((λ line, p +:+ line) <$> Split text LF) (single LF)
  = p +:+ shiftLines p text.
Proof.
  induction text as [|c text IH]; [simpl; by rewrite append_nil_r|]. simpl.
  pose proof (Split_nonempty text LF) as Hne.
  destruct (Split text LF) as [|w ws]; [done|]. clear Hne.
  destruct (Ascii.eqb c LF) eqn:Hc.
  - apply Ascii.eqb_eq in Hc as ->.
    rewrite !fmap_cons in *. rewrite Join_cons, IH, append_nil_r. reflexivity.
  - rewrite !fmap_cons in *.
    destruct ws as [|w' ws].
    + simpl in *. apply (inj (String.app p)) in IH. by rewrite IH.
    + rewrite !fmap_cons in *. rewrite Join_cons in *.
      rewrite append_assoc in IH. apply (inj (String.app p)) in IH.
      by rewrite append_assoc, append_cons, IH.
Qed.

Lemma Contains_Join (elems : list string) (sep e : string) :
  e ∈ elems → Contains (Join elems sep) e = true.
Proof.
  induction elems as [|e' rest IH]; [by intros ?%elem_of_nil|].
  destruct rest as [|e'' rest].
  - intros ->%list_elem_of_singleton. apply Contains_refl.
  - rewrite Join_cons. intros [->|Hin]%elem_of_cons.
    + apply Contains_HasPrefix, HasPrefix_app.
    + by apply Contains_app_r, Contains_app_r, IH.
Qed.

Lemma Join_prefix (p sep : string) (elems : list string) :
  elems ≠ [] →
  p +:+ Join elems (sep +:+ p) = Join ((λ e, p +:+ e) <$> elems) sep.
Proof.
  induction elems as [|e rest IH]; [done|]. intros _.
  destruct rest as [|e' rest]; [done|].
  rewrite !fmap_cons in *. rewrite !Join_cons.
  rewrite <-IH by done. by rewrite !append_assoc.
Qed.

(** ** The JSON string encoder never emits a raw line feed *)

Lemma hasByte_LF_appendByte (b : ascii) : hasByte LF (json.appendByte b) = false.
Proof. destruct b as [[] [] [] [] [] [] [] []]; vm_compute; reflexivity. Qed.

Lemma between_not_LF (lo hi : N) (b : ascii) :
  (11 ≤ lo)%N → json.between lo hi b = true → Ascii.eqb b LF = false.
Proof.
  unfold json.between. intros Hlo [Hb _]%andb_true_iff.
  apply N.leb_le in Hb. apply Ascii.eqb_neq. intros ->.
  change (N_of_ascii LF) with 10%N in Hb. lia.
Qed.

Lemma high_not_LF (b : ascii) :
  (N_of_ascii b <? 128)%N = false → Ascii.eqb b LF = false.
Proof.
  intros Hb. apply N.ltb_ge in Hb. apply Ascii.eqb_neq. intros ->.
  change (N_of_ascii LF) with 10%N in Hb. lia.
Qed.

Lemma runeLen_continuation (b0 : ascii) (r0 : string) :
  match json.runeLen (String b0 r0), r0 with
  | 2%nat, String b1 _ => Ascii.eqb b1 LF = false
  | 3%nat, String b1 (String b2 _) =>
      Ascii.eqb b1 LF = false ∧ Ascii.eqb b2 LF = false
  | 4%nat, String b1 (String b2 (String b3 _)) =>
      Ascii.eqb b1 LF = false ∧ Ascii.eqb b2 LF = false
      ∧ Ascii.eqb b3 LF = false
  | _, _ => True
  end.
Proof.
  unfold json.runeLen.
  repeat case_match; simplify_eq; try done;
    repeat match goal with
    | H : _ && _ = true |- _ => apply andb_true_iff in H as [? ?]
    end;
    split_and?; (eapply between_not_LF; [|eassumption]; lia).
Qed.

Lemma hasByte_LF_appendRunes (src : string) :
  hasByte LF (json.appendRunes src) = false.
Proof.
  remember (String.length src) as n eqn:Hn. revert src Hn.
  induction n as [n IH] using lt_wf_ind. intros src ->.
  destruct src as [|b0 r0]; [done|].
  cbn [json.appendRunes].
  destruct (N_of_ascii b0 <? 128)%N eqn:Hb0.
  { rewrite hasByte_app, hasByte_LF_appendByte. simpl.
    eapply IH; [|done]. simpl. lia. }
  pose proof (runeLen_continuation b0 r0) as Hcont.
  pose proof (high_not_LF _ Hb0) as Hb0'.
  assert (hasByte LF ("\ufffd" +:+ json.appendRunes r0) = false) as Hbad.
  { rewrite hasByte_app. simpl. eapply IH; [|done]. simpl. lia. }
  destruct (json.runeLen (String b0 r0)) as [|[|[|[|[|?]]]]]; try done.
  - destruct r0 as [|b1 r1]; [done|].
    simpl. rewrite Hb0', Hcont. simpl. eapply IH; [|done]. simpl. lia.
  - destruct r0 as [|b1 [|b2 r2]]; [done..|].
    destruct Hcont as [Hb1 Hb2].
    case_match.
    + rewrite hasByte_app. simpl.
      assert (Ascii.eqb (json.hex (N.land (N_of_ascii b2) 15)) LF = false) as ->.
      { clear. destruct b2 as [[] [] [] [] [] [] [] []]; vm_compute; reflexivity. }
      simpl. eapply IH; [|done]. simpl. lia.
    + simpl. rewrite Hb0', Hb1, Hb2. simpl. eapply IH; [|done]. simpl. lia.
  - destruct r0 as [|b1 [|b2 [|b3 r3]]]; [done..|].
    destruct Hcont as (Hb1 & Hb2 & Hb3).
    simpl. rewrite Hb0', Hb1, Hb2, Hb3. simpl. eapply IH; [|done]. simpl. lia.
Qed.

Lemma hasByte_LF_appendString (src : string) :
  hasByte LF (json.appendString src) = false.
Proof.
  unfold json.appendString. simpl.
  by rewrite hasByte_app, hasByte_LF_appendRunes.
Qed.

(** ** The field map: last write wins *)

Lemma foldl_insert_lookup (fields : list Field) (m : gmap string any) (k : string) :
  foldl (λ m field, <[Key field := Value field]> m) m fields !! k
  = match lastValue k fields with
    | Some v => Some v
    | None => m !! k
    end.
Proof.
  revert m. induction fields as [|f rest IH]; intros m; simpl; [done|].
  rewrite IH. destruct (lastValue k rest); [done|].
  destruct (decide (Key f = k)) as [->|Hne].
  - by rewrite lookup_insert_eq.
  - by rewrite lookup_insert_ne.
Qed.

Lemma fieldMap_lookup (fields : list Field) (k : string) :
  fieldMap fields !! k = lastValue k fields.
Proof.
  unfold fieldMap. rewrite foldl_insert_lookup, lookup_empty.
  by destruct (lastValue k fields).
Qed.

Lemma lastValue_None (k : string) (fields : list Field) :
  lastValue k fields = None ↔ k ∉ Key <$> fields.
Proof.
  induction fields as [|f rest IH]; cbn [lastValue].
  - split; [|done]. intros _ Hin. by apply elem_of_nil in Hin.
  - rewrite fmap_cons, not_elem_of_cons, <-IH.
    destruct (lastValue k rest).
    + split; [done|]. by intros [_ ?].
    + destruct (decide (Key f = k)) as [Heq|Hne].
      * split; [done|]. intros [Hk _]. by destruct Hk.
      * split; [|done]. intros _. split; [|done]. by intros ->.
Qed.

Lemma lastValue_Some_elem_of (k : string) (fields : list Field) :
  is_Some (lastValue k fields) ↔ k ∈ Key <$> fields.
Proof.
  rewrite <-not_eq_None_Some, lastValue_None.
  split; [apply dec_stable|]. by intros ? ?.
Qed.

Lemma lastValue_app_last (k : string) (v : any) (front back : list Field) :
  k ∉ Key <$> back →
  lastValue k (front ++ {| Key := k; Value := v |} :: back) = Some v.
Proof.
  intros Hback%lastValue_None.
  induction front as [|f front IH]; simpl.
  - rewrite Hback. by rewrite decide_True.
  - by rewrite IH.
Qed.

Lemma lastValue_collapseLast (k : string) (fields : list Field) :
  lastValue k (collapseLast fields) = lastValue k fields.
Proof.
  induction fields as [|f rest IH]; simpl; [done|].
  case_bool_decide as Hdup; simpl; rewrite IH; [|done].
  destruct (lastValue k rest) eqn:Hk; [done|].
  apply lastValue_None in Hk.
  destruct (decide (Key f = k)) as [<-|]; done.
Qed.

Lemma fieldMap_collapseLast (fields : list Field) :
  fieldMap (collapseLast fields) = fieldMap fields.
Proof.
  apply map_eq. intros k. by rewrite !fieldMap_lookup, lastValue_collapseLast.
Qed.

Lemma collapseLast_nil (fields : list Field) :
  collapseLast fields = [] ↔ fields = [].
Proof.
  split; [|by intros ->].
  induction fields as [|f rest IH]; simpl; [done|].
  case_bool_decide as Hdup; [|done].
  intros ->%IH. by apply elem_of_nil in Hdup.
Qed.

Lemma NoDup_collapseLast (fields : list Field) :
  NoDup (Key <$> collapseLast fields).
Proof.
  induction fields as [|f rest IH]; simpl; [constructor|].
  case_bool_decide as Hdup; [done|].
  rewrite fmap_cons. constructor; [|done].
  intros Hin. apply Hdup.
  apply lastValue_None in Hdup. rewrite <-lastValue_collapseLast in Hdup.
  apply lastValue_None in Hdup. done.
Qed.

Lemma elem_of_dom_fieldMap (fields : list Field) (k : string) :
  is_Some (fieldMap fields !! k) ↔ k ∈ Key <$> fields.
Proof. rewrite fieldMap_lookup. apply lastValue_Some_elem_of. Qed.

Lemma fieldMap_nonempty (fields : list Field) :
  fields ≠ [] → fieldMap fields ≠ ∅.
Proof.
  destruct fields as [|f rest]; [done|]. intros _ Hempty.
  assert (is_Some (fieldMap (f :: rest) !! Key f)) as [v Hv].
  { apply elem_of_dom_fieldMap. rewrite fmap_cons. left. }
  by rewrite Hempty, lookup_empty in Hv.
Qed.

Lemma lastValue_NoDup (k : string) (v : any) (fields : list Field) :
  NoDup (Key <$> fields) →
  lastValue k fields = Some v ↔ {| Key := k; Value := v |} ∈ fields.
Proof.
  induction fields as [|f rest IH]; cbn [lastValue].
  - intros _. split; [done|]. by intros ?%elem_of_nil.
  - rewrite fmap_cons, NoDup_cons. intros [Hf Hnd].
    specialize (IH Hnd). rewrite elem_of_cons.
    destruct (lastValue k rest) as [w|] eqn:Hk.
    + split; [intros Hw; right; by apply IH|].
      intros [Heq|Hin]; [|by apply IH].
      exfalso. apply Hf. rewrite <-Heq. simpl.
      apply lastValue_Some_elem_of. by rewrite Hk.
    + destruct f as [kf vf]. simpl.
      destruct (decide (kf = k)) as [->|Hne].
      * split; [intros [= ->]; by left|].
        intros [[= ->]|Hin]; [done|]. by apply IH in Hin.
      * split; [done|].
        intros [[= ? ?]|Hin]; [done|]. by apply IH in Hin.
Qed.

(** The field map does not depend on the order of fields with distinct
    keys. *)
Lemma fieldMap_Permutation (fields fields' : list Field) :
  NoDup (Key <$> fields) → fields ≡ₚ fields' → fieldMap fields = fieldMap fields'.
Proof.
  intros Hnd Hperm. apply map_eq. intros k. rewrite !fieldMap_lookup.
  assert (NoDup (Key <$> fields')) as Hnd' by (by rewrite <-Hperm).
  destruct (lastValue k fields) as [v|] eqn:Hk.
  - symmetry. apply (lastValue_NoDup _ _ _ Hnd'). rewrite <-Hperm.
    by apply (lastValue_NoDup _ _ _ Hnd).
  - destruct (lastValue k fields') as [v|] eqn:Hk'; [|done].
    apply (lastValue_NoDup _ _ _ Hnd') in Hk'. rewrite <-Hperm in Hk'.
    apply (lastValue_NoDup _ _ _ Hnd) in Hk'. congruence.
Qed.

(** ** The encoder writes the entries of a map by increasing key *)

Global Instance keyLe_total {A : Type} : Total (@json.keyLe A).
Proof. intros x y. unfold json.keyLe. apply (total String.le). Qed.

Global Instance keyLe_trans {A : Type} : Transitive (@json.keyLe A).
Proof. intros x y z. unfold json.keyLe. apply (transitivity (R := String.le)). Qed.

Lemma sortedEntries_Permutation {A : Type} (m : gmap string A) :
  json.sortedEntries m ≡ₚ map_to_list m.
Proof. apply merge_sort_Permutation. Qed.

Lemma sortedEntries_Sorted {A : Type} (m : gmap string A) :
  Sorted json.keyLe (json.sortedEntries m).
Proof. apply (Sorted_merge_sort _). Qed.

Lemma elem_of_sortedEntries {A : Type} (m : gmap string A) (k : string) (x : A) :
  (k, x) ∈ json.sortedEntries m ↔ m !! k = Some x.
Proof. by rewrite sortedEntries_Permutation, elem_of_map_to_list. Qed.

Lemma NoDup_sortedEntries {A : Type} (m : gmap string A) :
  NoDup (json.sortedEntries m).*1.
Proof. rewrite sortedEntries_Permutation. apply NoDup_fst_map_to_list. Qed.

Lemma elem_of_sortedEntries_keys {A : Type} (m : gmap string A) (k : string) :
  k ∈ (json.sortedEntries m).*1 ↔ is_Some (m !! k).
Proof.
  rewrite list_elem_of_fmap. split.
  - intros ([k' x] & -> & Hin). apply elem_of_sortedEntries in Hin. eauto.
  - intros [x Hx]. exists (k, x). split; [done|]. by apply elem_of_sortedEntries.
Qed.

Lemma sortedEntries_fmap {A B : Type} (f : A → B) (m : gmap string A) :
  json.sortedEntries (f <$> m) = prod_map id f <$> json.sortedEntries m.
Proof.
  apply (Sorted_unique_strong json.keyLe).
  - intros [k1 y1] [k2 y2] Hin1 Hin2 Hle1 Hle2.
    unfold json.keyLe in Hle1, Hle2. simpl in *.
    assert (k1 = k2) as <- by (by apply (anti_symm String.le)).
    apply elem_of_sortedEntries in Hin1.
    apply list_elem_of_fmap in Hin2 as ([k x] & [= -> ->] & Hin2).
    apply elem_of_sortedEntries in Hin2.
    rewrite lookup_fmap, Hin2 in Hin1. simpl in Hin1. congruence.
  - apply sortedEntries_Sorted.
  - eapply Sorted_fmap; [|apply sortedEntries_Sorted].
    by intros [k1 x1] [k2 x2].
  - rewrite !sortedEntries_Permutation. by rewrite map_to_list_fmap.
Qed.

Lemma sortedEntries_keys_increasing {A : Type} (m : gmap string A) :
  StronglySorted keyLt (json.sortedEntries m).*1.
Proof.
  pose proof (NoDup_sortedEntries m) as Hnd.
  pose proof (Sorted_StronglySorted _ _ (sortedEntries_Sorted m)) as Hs.
  induction Hs as [|[k x] l Hs IH Hall]; csimpl in *; [constructor|].
  apply NoDup_cons in Hnd as [Hk Hnd].
  constructor; [by apply IH|].
  apply Forall_fmap, Forall_forall. intros [k' x'] Hin.
  rewrite Forall_forall in Hall. split; [by apply (Hall _ Hin)|].
  simpl. intros ->. apply Hk. apply list_elem_of_fmap. by exists (k', x').
Qed.

Lemma sortedEntries_nonempty {A : Type} (m : gmap string A) :
  m ≠ ∅ → json.sortedEntries m ≠ [].
Proof.
  intros Hm Hnil. apply Hm, map_to_list_empty_iff.
  apply Permutation_nil. by rewrite <-sortedEntries_Permutation, Hnil.
Qed.

(** The entries of an object, once every value is rendered. *)
Lemma mapM_entries (f : any → json.result string) (colon : string)
    (l : list (string * any)) (entries : list string) :
  mapM (λ kv : string * json.result string,
          s ← kv.2; json.Ok (json.appendString kv.1 +:+ colon +:+ s))
       (prod_map id f <$> l) = json.Ok entries →
  ∃ rendered : list (string * string),
    Forall2 (λ kv ks, ks.1 = kv.1 ∧ f kv.2 = json.Ok ks.2) l rendered
    ∧ entries = (λ ks, json.appendString ks.1 +:+ colon +:+ ks.2) <$> rendered.
Proof.
  revert entries. induction l as [|[k v] l IH]; intros entries; csimpl.
  - intros [= <-]. exists []. split; [constructor|done].
  - destruct (f v) as [s|e] eqn:Hv; simpl; [|done].
    destruct (mapM _ _) as [rest|e] eqn:Hrest; simpl; [|done].
    intros [= <-]. destruct (IH _ eq_refl) as (rendered & Hall & ->).
    exists ((k, s) :: rendered). split; [|done].
    constructor; [|done]. by split.
Qed.

Lemma MarshalIndent_map_Ok (m : gmap string any) (prefix indent s : string) :
  json.MarshalIndent (VMap m) prefix indent = json.Ok s →
  ∃ rendered : list (string * string),
    Forall2 (λ kv ks, ks.1 = kv.1
                      ∧ json.indentValue prefix indent 1 kv.2 = json.Ok ks.2)
      (json.sortedEntries m) rendered
    ∧ s = json.indentContainer prefix indent 0 "{" "}"
            ((λ ks, json.appendString ks.1 +:+ ": " +:+ ks.2) <$> rendered).
Proof.
  unfold json.MarshalIndent.
  destruct (json.Marshal (VMap m)) as [b|e]; simpl; [|done].
  change (json.maxNestingDepth <=? 0)%N with false. cbv iota.
  rewrite sortedEntries_fmap.
  destruct (mapM _ _) as [entries|e] eqn:Hentries; simpl; [|done].
  intros [= <-]. apply mapM_entries in Hentries as (rendered & Hall & ->).
  by exists rendered.
Qed.

(** ** The serialized block *)

Lemma formatFieldsAsJSON_nil (mk : MakLogger) :
  formatFieldsAsJSON mk [] = EmptyString.
Proof. done. Qed.

Lemma formatFieldsAsJSON_cons (mk : MakLogger) (f : Field) (rest : list Field) :
  formatFieldsAsJSON mk (f :: rest)
  = match json.MarshalIndent (VMap (fieldMap (f :: rest))) "  " "  " with
    | json.Err err => marshalFailure err
    | json.Ok jsonBytes => "  " +:+ shiftLines "  " jsonBytes
    end.
Proof.
  unfold formatFieldsAsJSON. simpl length. cbn [Nat.eqb].
  destruct (json.MarshalIndent _ _ _) as [jsonBytes|err]; [|done].
  apply Join_Split_shiftLines.
Qed.

Lemma shiftLines_entries (rendered : list (string * string)) :
  shiftLines "  " <$>
    ((λ ks, json.appendString ks.1 +:+ ": " +:+ ks.2) <$> rendered)
  = (λ ks, json.appendString ks.1 +:+ ": " +:+ shiftLines "  " ks.2)
      <$> rendered.
Proof.
  rewrite <-list_fmap_compose. apply list_fmap_ext. intros _ [k v] _.
  unfold compose. cbn [fst snd]. rewrite !shiftLines_app.
  by rewrite (shiftLines_id _ (json.appendString k))
    by apply hasByte_LF_appendString.
Qed.

(** The block of a field sequence that serializes: an opening brace after
    two spaces, one entry per key after six spaces, and the closing brace
    after four spaces. *)
Lemma formatFieldsAsJSON_Ok (mk : MakLogger) (fields : list Field) (s : string) :
  fields ≠ [] →
  json.MarshalIndent (VMap (fieldMap fields)) "  " "  " = json.Ok s →
  ∃ rendered : list (string * string),
    Forall2 (λ kv ks, ks.1 = kv.1
                      ∧ json.indentValue "  " "  " 1 kv.2 = json.Ok ks.2)
      (json.sortedEntries (fieldMap fields)) rendered
    ∧ formatFieldsAsJSON mk fields
      = "  {" +:+ single LF
        +:+ Join ((λ ks, "      " +:+ json.appendString ks.1 +:+ ": "
                         +:+ shiftLines "  " ks.2) <$> rendered)
              ("," +:+ single LF)
        +:+ single LF +:+ "    }".
Proof.
  intros Hne Hok.
  pose proof (fieldMap_nonempty _ Hne) as Hmap.
  destruct fields as [|f rest]; [done|].
  rewrite formatFieldsAsJSON_cons, Hok.
  apply MarshalIndent_map_Ok in Hok as (rendered & Hall & ->).
  exists rendered. split; [done|].
  assert (rendered ≠ []) as Hrendered.
  { intros ->. apply Forall2_nil_inv_r in Hall.
    by apply sortedEntries_nonempty in Hmap. }
  destruct rendered as [|r rs]; [done|]. clear Hrendered Hall Hmap.
  unfold json.indentContainer. rewrite (fmap_cons _ r rs).
  rewrite <-(fmap_cons (λ ks, json.appendString ks.1 +:+ ": " +:+ ks.2) r rs).
  rewrite !shiftLines_app, shiftLines_Join, shiftLines_entries.
  change (shiftLines "  " "{") with "{".
  change (shiftLines "  " "}") with "}".
  change (shiftLines "  " (json.appendNewline "  " "  " (0 + 1)))
    with (single LF +:+ "      ").
  change (shiftLines "  " (json.appendNewline "  " "  " 0))
    with (single LF +:+ "    ").
  change (shiftLines "  " ("," +:+ json.appendNewline "  " "  " (0 + 1)))
    with (("," +:+ single LF) +:+ "      ").
  rewrite (append_assoc (single LF) "      ").
  rewrite <-(append_assoc "      " (Join _ _)).
  rewrite Join_prefix by done.
  rewrite <-list_fmap_compose.
  reflexivity.
Qed.

(** Whatever the fields, a block that serializes opens with ["  {"] on a
    line of its own and closes with the line ["    }"]. *)
Lemma formatFieldsAsJSON_Ok_lines (mk : MakLogger) (fields : list Field)
    (s : string) :
  fields ≠ [] →
  json.MarshalIndent (VMap (fieldMap fields)) "  " "  " = json.Ok s →
  head (Split (formatFieldsAsJSON mk fields) LF) = Some "  {"
  ∧ lastLine (formatFieldsAsJSON mk fields) = "    }".
Proof.
  intros Hne Hok.
  destruct (formatFieldsAsJSON_Ok mk fields s Hne Hok) as (rendered & _ & ->).
  split.
  - rewrite (single_append LF (Join _ _ +:+ _)).
    rewrite Split_app_sep. by rewrite (Split_no_sep "  {").
  - unfold lastLine. rewrite <-!append_assoc.
    rewrite (append_assoc _ (single LF) "    }"), (single_append LF "    }").
    rewrite Split_app_sep, (Split_no_sep "    }") by done.
    by rewrite last_snoc.
Qed.

Lemma formatFieldsAsJSON_fieldMap (mk : MakLogger) (fields fields' : list Field) :
  fields ≠ [] → fields' ≠ [] → fieldMap fields = fieldMap fields' →
  formatFieldsAsJSON mk fields = formatFieldsAsJSON mk fields'.
Proof.
  destruct fields as [|f rest], fields' as [|f' rest']; try done.
  intros _ _ Hmap. by rewrite !formatFieldsAsJSON_cons, Hmap.
Qed.

Lemma formatFieldsAsJSON_collapseLast (mk : MakLogger) (fields : list Field) :
  formatFieldsAsJSON mk fields = formatFieldsAsJSON mk (collapseLast fields).
Proof.
  destruct (decide (fields = [])) as [->|Hne]; [done|].
  apply formatFieldsAsJSON_fieldMap; [done| |by rewrite fieldMap_collapseLast].
  by rewrite collapseLast_nil.
Qed.

Lemma rendered_keys {A B : Type} (P : A → B → Prop)
    (l : list (string * A)) (rendered : list (string * B)) :
  Forall2 (λ kv ks, ks.1 = kv.1 ∧ P kv.2 ks.2) l rendered →
  rendered.*1 = l.*1.
Proof. induction 1 as [|kv ks l r [Hk _] _ IH]; csimpl; [done|]. by rewrite Hk, IH. Qed.

Lemma rendered_lookup {A B : Type} (P : A → B → Prop)
    (l : list (string * A)) (rendered : list (string * B)) (k : string) (x : A) :
  Forall2 (λ kv ks, ks.1 = kv.1 ∧ P kv.2 ks.2) l rendered →
  (k, x) ∈ l → ∃ y, (k, y) ∈ rendered ∧ P x y.
Proof.
  induction 1 as [|kv [k' y] l r [Hk Hy] _ IH]; [by intros ?%elem_of_nil|].
  intros [Heq|Hin]%elem_of_cons.
  - exists y. simpl in *. subst. split; [left|done].
  - destruct (IH Hin) as (y' & Hin' & Hy'). exists y'. split; [by right|done].
Qed.

Lemma rendered_lookup_inv {A B : Type} (P : A → B → Prop)
    (l : list (string * A)) (rendered : list (string * B)) (k : string) (y : B) :
  Forall2 (λ kv ks, ks.1 = kv.1 ∧ P kv.2 ks.2) l rendered →
  (k, y) ∈ rendered → ∃ x, (k, x) ∈ l ∧ P x y.
Proof.
  induction 1 as [|[k' x] ks l r [Hk Hy] _ IH]; [by intros ?%elem_of_nil|].
  intros [Heq|Hin]%elem_of_cons.
  - exists x. simpl in *. subst. split; [left|done].
  - destruct (IH Hin) as (x' & Hin' & Hx'). exists x'. split; [by right|done].
Qed.

(** C9. When a non-empty field sequence serializes, the block lists one
    entry per key of the sequence, in strictly increasing byte order of the
    keys, each entry being the rendering of the value the map holds for
    that key; fields with distinct keys give the same block in any order. *)
Theorem formatFieldsAsJSON_keys_sorted (mk : MakLogger) (fields : list Field)
    (s : string) :
  fields ≠ [] →
  json.MarshalIndent (VMap (fieldMap fields)) "  " "  " = json.Ok s →
  ∃ rendered : list (string * string),
    formatFieldsAsJSON mk fields
    = "  {" +:+ single LF
      +:+ Join ((λ ks, "      " +:+ json.appendString ks.1 +:+ ": "
                       +:+ shiftLines "  " ks.2) <$> rendered)
            ("," +:+ single LF)
      +:+ single LF +:+ "    }"
    ∧ StronglySorted keyLt rendered.*1
    ∧ (∀ k, k ∈ rendered.*1 ↔ k ∈ Key <$> fields)
    ∧ Forall (λ ks, ∃ v, fieldMap fields !! ks.1 = Some v
                         ∧ json.indentValue "  " "  " 1 v = json.Ok ks.2)
        rendered
    ∧ ∀ fields', NoDup (Key <$> fields) → fields ≡ₚ fields' →
        formatFieldsAsJSON mk fields' = formatFieldsAsJSON mk fields.
Proof.
  intros Hne Hok.
  destruct (formatFieldsAsJSON_Ok mk fields s Hne Hok)
    as (rendered & Hall & Hfmt).
  exists rendered.
  pose proof (rendered_keys
    (λ v text, json.indentValue "  " "  " 1 v = json.Ok text) _ _ Hall) as Hkeys.
  split_and!.
  - done.
  - rewrite Hkeys. apply sortedEntries_keys_increasing.
  - intros k. by rewrite Hkeys, elem_of_sortedEntries_keys, elem_of_dom_fieldMap.
  - apply Forall_forall. intros [k text] Hin.
    destruct (rendered_lookup_inv
      (λ v text, json.indentValue "  " "  " 1 v = json.Ok text) _ _ _ _ Hall Hin)
      as (v & Hv & Htext).
    exists v. split; [by apply elem_of_sortedEntries|done].
  - intros fields' Hnd Hperm.
    apply formatFieldsAsJSON_fieldMap.
    + intros ->. by apply Permutation_nil_r in Hperm.
    + done.
    + symmetry. by apply fieldMap_Permutation.
Qed.

Lemma formatFieldsAsJSON_keys_sorted_witness :
  [fieldB2; fieldA1] ≠ []
  ∧ json.MarshalIndent (VMap (fieldMap [fieldB2; fieldA1])) "  " "  "
    = json.Ok ("{" +:+ single LF +:+ "    " +:+ json.appendString "a" +:+ ": 1,"
               +:+ single LF +:+ "    " +:+ json.appendString "b" +:+ ": 2"
               +:+ single LF +:+ "  }")
  ∧ ∃ rendered : list (string * string),
      formatFieldsAsJSON plainLogger [fieldB2; fieldA1]
      = "  {" +:+ single LF
        +:+ Join ((λ ks, "      " +:+ json.appendString ks.1 +:+ ": "
                         +:+ shiftLines "  " ks.2) <$> rendered)
              ("," +:+ single LF)
        +:+ single LF +:+ "    }"
      ∧ StronglySorted keyLt rendered.*1.
Proof.
  assert ([fieldB2; fieldA1] ≠ []) as Hne by discriminate.
  assert (json.MarshalIndent (VMap (fieldMap [fieldB2; fieldA1])) "  " "  "
          = json.Ok ("{" +:+ single LF +:+ "    " +:+ json.appendString "a"
                     +:+ ": 1," +:+ single LF +:+ "    "
                     +:+ json.appendString "b" +:+ ": 2"
                     +:+ single LF +:+ "  }")) as Hok
    by (vm_compute; reflexivity).
  split_and!; [exact Hne|exact Hok|].
  destruct (formatFieldsAsJSON_keys_sorted plainLogger _ _ Hne Hok)
    as (rendered & Hfmt & Hsorted & _).
  exists rendered. exact (conj Hfmt Hsorted).
Defined.

Lemma lastValue_app (k : string) (l1 l2 : list Field) :
  lastValue k (l1 ++ l2)
  = match lastValue k l2 with
    | Some v => Some v
    | None => lastValue k l1
    end.
Proof.
  induction l1 as [|f l1 IH]; simpl.
  - by destruct (lastValue k l2).
  - rewrite IH. by destruct (lastValue k l2).
Qed.

(** An occurrence of a key that a later field repeats has no influence on
    the field map. *)
Lemma fieldMap_shadowed (front middle back : list Field) (k : string)
    (v1 v1' v2 : any) :
  fieldMap (front ++ {| Key := k; Value := v1' |}
              :: middle ++ {| Key := k; Value := v2 |} :: back)
  = fieldMap (front ++ {| Key := k; Value := v1 |}
                :: middle ++ {| Key := k; Value := v2 |} :: back).
Proof.
  apply map_eq. intros k'. rewrite !fieldMap_lookup, !lastValue_app.
  cbn [lastValue Key Value].
  destruct (lastValue k' (middle ++ _)) as [w|] eqn:Htail; [done|].
  apply lastValue_None in Htail.
  destruct (decide (k = k')) as [<-|Hne]; [|done].
  exfalso. apply Htail. rewrite fmap_app, fmap_cons. simpl.
  apply elem_of_app. right. left.
Qed.

Lemma collapseLast_sublist (fields : list Field) :
  collapseLast fields `sublist_of` fields.
Proof.
  induction fields as [|f rest IH]; simpl; [constructor|].
  case_bool_decide; by constructor.
Qed.

(** C3, amended. Serializing a field sequence is serializing the sequence with
    duplicate keys collapsed to their last occurrence.  When a key occurs
    twice, the map holds the value of the last occurrence, the earlier
    value has no influence on the block, and a block that serializes
    contains the entry made of the key and the rendering of the last
    value. *)
Theorem formatFieldsAsJSON_last_write_wins (mk : MakLogger)
    (fields : list Field) :
  formatFieldsAsJSON mk fields = formatFieldsAsJSON mk (collapseLast fields)
  ∧ NoDup (Key <$> collapseLast fields)
  ∧ collapseLast fields `sublist_of` fields
  ∧ (∀ k, lastValue k (collapseLast fields) = lastValue k fields)
  ∧ ∀ front middle back k v1 v2,
      fields = front ++ {| Key := k; Value := v1 |}
                 :: middle ++ {| Key := k; Value := v2 |} :: back →
      k ∉ Key <$> back →
      fieldMap fields !! k = Some v2
      ∧ (∀ v1',
           formatFieldsAsJSON mk
             (front ++ {| Key := k; Value := v1' |}
                :: middle ++ {| Key := k; Value := v2 |} :: back)
           = formatFieldsAsJSON mk fields)
      ∧ ∀ s,
          json.MarshalIndent (VMap (fieldMap fields)) "  " "  " = json.Ok s →
          ∃ text,
            json.indentValue "  " "  " 1 v2 = json.Ok text
            ∧ Contains (formatFieldsAsJSON mk fields)
                ("      " +:+ json.appendString k +:+ ": "
                 +:+ shiftLines "  " text) = true.
Proof.
  split_and!.
  - apply formatFieldsAsJSON_collapseLast.
  - apply NoDup_collapseLast.
  - apply collapseLast_sublist.
  - intros k. apply lastValue_collapseLast.
  - intros front middle back k v1 v2 -> Hback.
    assert (fieldMap (front ++ {| Key := k; Value := v1 |}
                        :: middle ++ {| Key := k; Value := v2 |} :: back) !! k
            = Some v2) as Hlast.
    { rewrite fieldMap_lookup.
      rewrite (app_comm_cons middle), (assoc_L (++) front).
      by apply lastValue_app_last. }
    split_and!.
    + done.
    + intros v1'. apply formatFieldsAsJSON_fieldMap.
      * by destruct front.
      * by destruct front.
      * apply fieldMap_shadowed.
    + intros s Hok.
      eapply formatFieldsAsJSON_Ok in Hok as (rendered & Hall & ->);
        [|by destruct front].
      apply elem_of_sortedEntries in Hlast.
      destruct (rendered_lookup
        (λ v text, json.indentValue "  " "  " 1 v = json.Ok text)
        _ _ _ _ Hall Hlast) as (text & Hin & Htext).
      exists text. split; [done|].
      apply Contains_app_r, Contains_app_r, Contains_app_l, Contains_Join.
      apply list_elem_of_fmap. by exists (k, text).
Qed.

Lemma formatFieldsAsJSON_last_write_wins_witness :
  formatFieldsAsJSON plainLogger [fieldA1; fieldA2]
  = formatFieldsAsJSON plainLogger [fieldA2]
  ∧ fieldMap [fieldA1; fieldA2] !! "a" = Some (VInt 2)
  ∧ Contains (formatFieldsAsJSON plainLogger [fieldA1; fieldA2]) "2" = true
  ∧ Contains (formatFieldsAsJSON plainLogger [fieldA1; fieldA2]) "1" = false.
Proof.
  destruct (formatFieldsAsJSON_last_write_wins plainLogger [fieldA1; fieldA2])
    as (Hcollapse & _ & _ & _ & Hdup).
  destruct (Hdup [] [] [] "a" (VInt 1) (VInt 2) eq_refl) as (Hlast & _ & _).
  { intros Hin. by apply elem_of_nil in Hin. }
  split_and!; [exact Hcollapse|exact Hlast|vm_compute; reflexivity..].
Defined.

(** C3 as written fails in two ways.  In [a = 1, b = 1, a = 2] the key
    [a] occurs twice and the block shows [2] for it, yet the text [1] of
    its earlier value is in the block, as the value of [b].  In
    [a = 1, a = 2, ch = <chan int>] the sequence does not serialize, and
    the block returned in that case does not contain the text [2] of the
    last value of [a]. *)
Lemma formatFieldsAsJSON_earlier_text_counterexample :
  json.Marshal (Value fieldA1) = json.Ok "1"
  ∧ json.Marshal (Value fieldA2) = json.Ok "2"
  ∧ Split (formatFieldsAsJSON plainLogger [fieldA1; fieldB1; fieldA2]) LF
    = [ "  {";
        "      " +:+ json.appendString "a" +:+ ": 2,";
        "      " +:+ json.appendString "b" +:+ ": 1";
        "    }" ]
  ∧ Contains (formatFieldsAsJSON plainLogger [fieldA1; fieldB1; fieldA2]) "1"
    = true
  ∧ formatFieldsAsJSON plainLogger [fieldA1; fieldA2; fieldChan]
    = marshalFailure (json.UnsupportedTypeError "chan int")
  ∧ Contains (formatFieldsAsJSON plainLogger [fieldA1; fieldA2; fieldChan]) "2"
    = false.
Proof. split_and!; vm_compute; reflexivity. Qed.

Lemma mapM_Err {A B : Type} (f : A → json.result B) (l : list A) (x : A)
    (e : json.error) :
  x ∈ l → f x = json.Err e → ∃ e', mapM f l = json.Err e'.
Proof.
  intros Hin Hx. induction l as [|y l IH]; [by apply elem_of_nil in Hin|].
  simpl. apply elem_of_cons in Hin as [<-|Hin].
  - rewrite Hx. by eexists.
  - destruct (f y) as [b|e0]; simpl; [|by eexists].
    destruct (IH Hin) as [e' ->]. by eexists.
Qed.

(** A value the encoder rejects makes the serialization of the whole map
    fail. *)
Lemma MarshalIndent_rejected (m : gmap string any) (k : string) (v : any)
    (e : json.error) (prefix indent : string) :
  m !! k = Some v → json.Marshal v = json.Err e →
  ∃ err, json.MarshalIndent (VMap m) prefix indent = json.Err err.
Proof.
  intros Hk Hv. unfold json.MarshalIndent.
  assert (∃ err, json.Marshal (VMap m) = json.Err err) as [err ->];
    [|by eexists].
  cbn [json.Marshal].
  destruct (mapM_Err
    (λ kv : string * json.result string,
       s ← kv.2; json.Ok (json.appendString kv.1 +:+ ":" +:+ s))
    (json.sortedEntries (json.Marshal <$> m))
    (k, json.Err e) e) as [err Herr].
  - apply elem_of_sortedEntries. by rewrite lookup_fmap, Hk, <-Hv.
  - done.
  - rewrite Herr. by eexists.
Qed.

Lemma marshalFailure_lines (err : json.error) :
  marshalFailure err = Join [ "  {"; errorLine err; "  }" ] (single LF).
Proof.
  unfold marshalFailure, errorLine. rewrite !Join_cons. simpl Join.
  by rewrite !append_assoc.
Qed.

Lemma hasByte_LF_errorLine (err : json.error) :
  hasByte LF (errorLine err) = hasByte LF (json.Error err).
Proof.
  unfold errorLine. rewrite !hasByte_app.
  change (hasByte LF (single DQUOTE)) with false.
  change (hasByte LF "    ") with false.
  change (hasByte LF "error") with false.
  change (hasByte LF ": ") with false.
  change (hasByte LF "failed to marshal fields: ") with false.
  cbn [orb]. by rewrite orb_false_r.
Qed.

(** C7, amended. When the field map cannot be serialized, the serializer
    returns the fallback block: the line ["  {"], a line made of four
    spaces and the key ["error"] whose value is the description of the
    failure after ["failed to marshal fields: "], and the line ["  }"].
    The description is printed as it is, so the block consists of these
    three lines, indented by two, four and two spaces, exactly when the
    description holds no line feed.  [log] prints the block as its second
    write; no error reaches its caller. *)
Theorem formatFieldsAsJSON_marshal_failure (mk : MakLogger)
    (fields : list Field) (err : json.error) :
  json.MarshalIndent (VMap (fieldMap fields)) "  " "  " = json.Err err →
  formatFieldsAsJSON mk fields
  = Join [ "  {"; errorLine err; "  }" ] (single LF)
  ∧ Contains (formatFieldsAsJSON mk fields)
      (single DQUOTE +:+ "error" +:+ single DQUOTE +:+ ": " +:+ single DQUOTE
       +:+ "failed to marshal fields: " +:+ json.Error err +:+ single DQUOTE)
    = true
  ∧ (Split (formatFieldsAsJSON mk fields) LF
     = [ "  {"; errorLine err; "  }" ]
     ↔ hasByte LF (json.Error err) = false)
  ∧ ∀ rt level color msg out,
      ∃ written,
        log mk rt level color msg fields out
        = out ++ [written; fieldsWrite mk fields].
Proof.
  intros Herr.
  destruct fields as [|f rest]; [by vm_compute in Herr|].
  assert (formatFieldsAsJSON mk (f :: rest)
          = Join [ "  {"; errorLine err; "  }" ] (single LF)) as Hblock
    by (by rewrite formatFieldsAsJSON_cons, Herr, marshalFailure_lines).
  split_and!.
  - done.
  - rewrite Hblock. rewrite !Join_cons. simpl Join.
    do 2 apply Contains_app_r. apply Contains_app_l.
    unfold errorLine. apply Contains_app_r. apply Contains_refl.
  - rewrite Hblock. split.
    + intros Hsplit.
      pose proof (Split_sep_free
        (Join [ "  {"; errorLine err; "  }" ] (single LF)) LF) as Hfree.
      rewrite Hsplit in Hfree.
      apply Forall_cons in Hfree as [_ Hfree].
      apply Forall_cons in Hfree as [Hline _].
      by rewrite hasByte_LF_errorLine in Hline.
    + intros Hfree. apply Split_Join; [done|].
      repeat constructor. by rewrite hasByte_LF_errorLine.
  - intros rt level color msg out.
    destruct (log_writes mk rt level color msg) as [written Hlog].
    exists written. by rewrite Hlog.
Qed.

Lemma formatFieldsAsJSON_marshal_failure_witness :
  json.MarshalIndent (VMap (fieldMap [fieldX1; fieldChan])) "  " "  "
  = json.Err (json.UnsupportedTypeError "chan int")
  ∧ Split (formatFieldsAsJSON colorLogger [fieldX1; fieldChan]) LF
    = [ "  {";
        "    " +:+ single DQUOTE +:+ "error" +:+ single DQUOTE +:+ ": "
        +:+ single DQUOTE
        +:+ "failed to marshal fields: json: unsupported type: chan int"
        +:+ single DQUOTE;
        "  }" ].
Proof.
  assert (json.MarshalIndent (VMap (fieldMap [fieldX1; fieldChan])) "  " "  "
          = json.Err (json.UnsupportedTypeError "chan int")) as Herr
    by (vm_compute; reflexivity).
  split; [exact Herr|].
  destruct (formatFieldsAsJSON_marshal_failure colorLogger _ _ Herr)
    as (_ & _ & Hlines & _).
  exact (proj2 Hlines eq_refl).
Defined.

(** C7 as written fails on a value whose [MarshalJSON] method returns an
    error with a line feed in its text: the serialization fails, the
    description goes on after the line feed on a line of its own, and that
    line of the block starts at the first column. *)
Lemma formatFieldsAsJSON_failure_layout_counterexample :
  json.MarshalIndent (VMap (fieldMap [fieldProbe])) "  " "  "
  = json.Err (json.MarshalerError "main.Probe"
                ("boom" +:+ single LF +:+ "more"))
  ∧ Split (formatFieldsAsJSON plainLogger [fieldProbe]) LF
    = [ "  {";
        "    " +:+ single DQUOTE +:+ "error" +:+ single DQUOTE +:+ ": "
        +:+ single DQUOTE +:+ "failed to marshal fields: "
        +:+ "json: error calling MarshalJSON for type main.Probe: boom";
        "more" +:+ single DQUOTE;
        "  }" ]
  ∧ HasPrefix ("more" +:+ single DQUOTE) "  " = false
  ∧ ¬ Forall (λ line, HasPrefix line "  " = true)
        (Split (formatFieldsAsJSON plainLogger [fieldProbe]) LF).
Proof.
  split_and!; [vm_compute; reflexivity..|].
  intros Hall.
  assert (Split (formatFieldsAsJSON plainLogger [fieldProbe]) LF
          !! 2%nat = Some ("more" +:+ single DQUOTE)) as Hline
    by (vm_compute; reflexivity).
  pose proof (proj1 (Forall_lookup _ _) Hall _ _ Hline) as Hprefix.
  by vm_compute in Hprefix.
Qed.

(** C8. Serializing no field gives the empty text.  A rendering call
    always writes its line; it writes the block of the fields, as a second
    write, exactly when at least one field is supplied. *)
Theorem log_fields_block (mk : MakLogger) (rt : Runtime) (level : Level)
    (color : Color) (msg : string) :
  formatFieldsAsJSON mk [] = EmptyString
  ∧ ∃ written, ∀ fields out,
      log mk rt level color msg fields out
      = out ++ written
          :: match fields with
             | [] => []
             | _ :: _ => [fieldsWrite mk fields]
             end
      ∧ (length (log mk rt level color msg fields out) = S (length out)
         ↔ fields = [])
      ∧ (length (log mk rt level color msg fields out) = S (S (length out))
         ↔ fields ≠ []).
Proof.
  split; [apply formatFieldsAsJSON_nil|].
  destruct (log_writes mk rt level color msg) as [written Hlog].
  exists written. intros fields out. rewrite Hlog.
  split; [done|].
  rewrite length_app. destruct fields as [|f rest]; simpl; split; split;
    intros; first [done | lia].
Qed.

(** C2. On the single field [x = 1] the block has three lines: ["  {"],
    the key after six spaces, and the closing brace after four spaces.
    [MarshalIndent] is given the prefix ["  "] and starts every line but the
    first with it; the serializer then adds two spaces in front of every
    line, so the key line and the closing line are indented two spaces
    more than the opening line and the fallback block are. *)
Theorem formatFieldsAsJSON_block_indentation :
  json.MarshalIndent (VMap (fieldMap [fieldX1])) "  " "  "
  = json.Ok (Join [ "{"; "    " +:+ json.appendString "x" +:+ ": 1"; "  }" ]
               (single LF))
  ∧ Split (formatFieldsAsJSON plainLogger [fieldX1]) LF
    = [ "  {"; "      " +:+ json.appendString "x" +:+ ": 1"; "    }" ]
  ∧ Split (formatFieldsAsJSON plainLogger [fieldX1]) LF
    ≠ [ "  {"; "    " +:+ json.appendString "x" +:+ ": 1"; "  }" ]
  ∧ lastLine (formatFieldsAsJSON plainLogger [fieldX1]) = "    }".
Proof. split_and!; [vm_compute; reflexivity..|discriminate|vm_compute; reflexivity]. Qed.

(** ** The checks of the test file, replayed on the embedding *)

Example TestColorize_foreground :
  Colorize "test" Red [] = String ESC "[31mtest" +:+ String ESC "[0m".
Proof. reflexivity. Qed.

Example TestColorize_background :
  Colorize "test" Red [BgBlue]
  = String ESC "[31m" +:+ String ESC "[44mtest" +:+ String ESC "[0m".
Proof. reflexivity. Qed.

Example TestColorizeIfEnabled :
  ColorizeIfEnabled "test" true Red [] ≠ "test"
  ∧ ColorizeIfEnabled "test" false Red [] = "test".
Proof. split; [discriminate|reflexivity]. Qed.

Example TestLogLevels :
  Forall (λ '(logFunc, message, expected),
            ∃ output, logFunc plainLogger sampleRuntime message [] [] = [output]
                      ∧ Contains output expected = true
                      ∧ Contains output message = true)
    [ (Info, "test info message", "INFO");
      (Success, "test success message", "SUCCESS");
      (Debug, "test debug message", "DEBUG");
      (Warn, "test warn message", "WARNING");
      (Error, "test error message", "ERROR");
      (Critical, "test critical message", "CRITICAL") ].
Proof.
  repeat constructor; eexists; (split; [vm_compute; reflexivity|]);
    split; vm_compute; reflexivity.
Qed.

Example TestFormatFieldsAsJSON :
  formatFieldsAsJSON colorLogger [] = EmptyString
  ∧ Forall (λ expected,
              Contains (formatFieldsAsJSON colorLogger
                          [{| Key := "test_key"; Value := VString "test_value" |}])
                expected = true)
      ["test_key"; "test_value"; "  {"].
Proof. split; [reflexivity|]. repeat constructor; vm_compute; reflexivity. Qed.

Example TestFieldTypes :
  Forall (λ expected,
            Contains (formatFieldsAsJSON plainLogger
                        [ {| Key := "string_field"; Value := VString "test string" |};
                          {| Key := "int_field"; Value := VInt 42 |};
                          {| Key := "bool_field"; Value := VBool true |};
                          {| Key := "nil_field"; Value := VNil |} ])
              expected = true)
    ["test string"; "42"; "true"; "null"].
Proof. repeat constructor; vm_compute; reflexivity. Qed.

Example TestComplexFieldValues :
  Split (formatFieldsAsJSON plainLogger
           [{| Key := "complex"; Value := complexValue |}]) LF
  = [ "  {";
      "      " +:+ json.appendString "complex" +:+ ": {";
      "        " +:+ json.appendString "array" +:+ ": [";
      "          " +:+ json.appendString "item1" +:+ ",";
      "          " +:+ json.appendString "item2";
      "        ],";
      "        " +:+ json.appendString "nested" +:+ ": {";
      "          " +:+ json.appendString "key" +:+ ": "
        +:+ json.appendString "value" +:+ ",";
      "          " +:+ json.appendString "number" +:+ ": 42";
      "        }";
      "      }";
      "    }" ].
Proof. vm_compute. reflexivity. Qed.

(** * Further properties of the code *)

(** ** Colors are presentation only *)

Lemma append_inj_r (s t u : string) : s +:+ u = t +:+ u → s = t.
Proof.
  revert t. induction s as [|c s IH]; intros [|d t] Heq.
  - done.
  - apply (f_equal String.length) in Heq.
    rewrite append_cons, append_nil_l in Heq. simpl in Heq.
    rewrite length_append in Heq. lia.
  - apply (f_equal String.length) in Heq.
    rewrite append_cons, append_nil_l in Heq. simpl in Heq.
    rewrite length_append in Heq. lia.
  - rewrite !append_cons in Heq. injection Heq as -> Heq.
    by rewrite (IH _ Heq).
Qed.

Lemma stripEscapes_app (inside : bool) (s t : string) :
  stripEscapes inside (s +:+ t)
  = stripEscapes inside s +:+ stripEscapes (escapeOpen inside s) t.
Proof.
  revert inside. induction s as [|c s IH]; intros inside; [done|].
  rewrite append_cons. simpl.
  destruct inside; [apply IH|].
  destruct (Ascii.eqb c ESC); [apply IH|]. by rewrite append_cons, IH.
Qed.

Lemma escapeOpen_app (inside : bool) (s t : string) :
  escapeOpen inside (s +:+ t) = escapeOpen (escapeOpen inside s) t.
Proof.
  revert inside. induction s as [|c s IH]; intros inside; [done|].
  rewrite append_cons. simpl. destruct inside; apply IH.
Qed.

Lemma strips_app (a a' b b' : string) :
  strips a a' → strips b b' → strips (a +:+ b) (a' +:+ b').
Proof.
  intros [Ha Hopen] [Hb Hopen']. split.
  - by rewrite stripEscapes_app, Hopen, Ha, Hb.
  - by rewrite escapeOpen_app, Hopen.
Qed.

Lemma strips_plain (a : string) : hasByte ESC a = false → strips a a.
Proof.
  induction a as [|c a IH]; [done|]. simpl.
  intros [Hc Ha]%orb_false_elim. destruct (IH Ha) as [Hs Ho].
  split; simpl; rewrite Hc; [by rewrite Hs|done].
Qed.

Lemma strips_code (c : Color) (a a' : string) :
  strips c EmptyString → strips a a' → strips (c +:+ a) a'.
Proof. intros Hc Ha. apply (strips_app c EmptyString a a' Hc Ha). Qed.

Lemma palette_strips (c : Color) : c ∈ palette → strips c EmptyString.
Proof.
  unfold palette. intros H.
  repeat (apply elem_of_cons in H as [->|H]; [by split|]).
  by apply elem_of_nil in H.
Qed.

Lemma strips_Colorize (text shown : string) (fg : Color) (bg : list Color) :
  fg ∈ palette → Forall (λ c, c ∈ palette) bg → strips text shown →
  strips (Colorize text fg bg) shown.
Proof.
  intros Hfg Hbg Htext. unfold Colorize.
  assert (strips (text +:+ Reset) shown) as Htail.
  { rewrite <-(append_nil_r shown). apply strips_app; [done|].
    apply palette_strips. unfold palette. left. }
  destruct Hbg as [|bg0 rest Hbg0 _].
  - by apply strips_code; [apply palette_strips|].
  - apply strips_code; [by apply palette_strips|].
    by apply strips_code; [apply palette_strips|].
Qed.

(** X1. [Colorize] reads only the first of its background arguments, and
    for fixed colors the text can be read back from its result, whatever
    the colors and the text are.  With the colors of the palette and a text
    free of escape bytes, removing the control sequences from the result
    gives the text back, and no sequence is left open. *)
Theorem Colorize_round_trip (text : string) (fg : Color) (bg : list Color) :
  Colorize text fg bg = Colorize text fg (take 1 bg)
  ∧ (∀ text', Colorize text fg bg = Colorize text' fg bg → text = text')
  ∧ (fg ∈ palette → Forall (λ c, c ∈ palette) bg →
     hasByte ESC text = false →
     stripEscapes false (Colorize text fg bg) = text
     ∧ escapeOpen false (Colorize text fg bg) = false).
Proof.
  split_and!.
  - by destruct bg.
  - intros text' Heq. unfold Colorize in Heq.
    destruct bg as [|bg0 rest].
    + apply (inj (String.app fg)) in Heq. by apply append_inj_r in Heq.
    + apply (inj (String.app fg)), (inj (String.app bg0)) in Heq.
      by apply append_inj_r in Heq.
  - intros Hfg Hbg Htext.
    exact (strips_Colorize text text fg bg Hfg Hbg (strips_plain _ Htext)).
Qed.

Lemma Colorize_round_trip_witness :
  Red ∈ palette ∧ Forall (λ c, c ∈ palette) [BgBlue; BgRed]
  ∧ hasByte ESC "test" = false
  ∧ stripEscapes false (Colorize "test" Red [BgBlue; BgRed]) = "test"
  ∧ Colorize "test" Red [BgBlue; BgRed] = Colorize "test" Red [BgBlue].
Proof.
  assert (Red ∈ palette) as Hfg by (unfold palette; repeat constructor).
  assert (Forall (λ c, c ∈ palette) [BgBlue; BgRed]) as Hbg
    by (unfold palette; repeat constructor).
  assert (hasByte ESC "test" = false) as Htext by reflexivity.
  destruct (Colorize_round_trip "test" Red [BgBlue; BgRed])
    as (Hfirst & _ & Hstrip).
  split_and!; [exact Hfg|exact Hbg|exact Htext| |exact Hfirst].
  exact (proj1 (Hstrip Hfg Hbg Htext)).
Defined.

Lemma strips_ColorizeIfEnabled (text shown : string) (enabled : bool)
    (fg : Color) (bg : list Color) :
  fg ∈ palette → Forall (λ c, c ∈ palette) bg → strips text shown →
  strips (ColorizeIfEnabled text enabled fg bg) shown.
Proof.
  intros Hfg Hbg Htext. destruct enabled; [|done].
  by apply strips_Colorize.
Qed.

Lemma getColoredLevel_strips (enabled : bool) (level : Level) :
  strips (getColoredLevel {| colorsEnabled := enabled |} level)
    (getColoredLevel {| colorsEnabled := false |} level).
Proof.
  unfold getColoredLevel. cbn [colorsEnabled].
  repeat case_match; rewrite ?ColorizeIfEnabled_off;
    repeat first
      [ by apply strips_plain
      | by (unfold palette; repeat constructor)
      | lazymatch goal with
        | |- strips (ColorizeIfEnabled _ _ _ _) _ =>
            apply strips_ColorizeIfEnabled
        | |- strips (_ +:+ _) (_ +:+ _) => apply strips_app
        end ].
Qed.

Lemma getColoredMessage_strips (enabled : bool) (level : Level) (msg : string) :
  hasByte ESC msg = false →
  strips (getColoredMessage {| colorsEnabled := enabled |} level msg)
    (getColoredMessage {| colorsEnabled := false |} level msg).
Proof.
  intros Hmsg. unfold getColoredMessage. cbn [colorsEnabled].
  repeat case_match; rewrite ?ColorizeIfEnabled_off;
    repeat first
      [ apply strips_ColorizeIfEnabled
      | by apply strips_plain
      | by (unfold palette; repeat constructor) ].
Qed.

Lemma formatFieldsAsJSON_receiver (mk mk' : MakLogger) (fields : list Field) :
  formatFieldsAsJSON mk fields = formatFieldsAsJSON mk' fields.
Proof. done. Qed.

(** X2. Colors are presentation only.  When the message, the file and
    function names of the caller and the serialized block hold no escape
    byte, removing the control sequences from what [log] writes with colors
    enabled gives exactly what it writes with colors disabled, write by
    write, for every level (those outside the fixed set included). *)
Theorem log_colors_presentation_only (mk : MakLogger) (rt : Runtime)
    (level : Level) (color : Color) (msg : string) (fields : list Field) :
  hasByte ESC msg = false →
  hasByte ESC (getCallerInfo rt 3).1.1 = false →
  hasByte ESC (shortName (getCallerInfo rt 3).2) = false →
  hasByte ESC (formatFieldsAsJSON mk fields) = false →
  stripEscapes false
    <$> log (SetColorsEnabled mk true) rt level color msg fields []
  = log (SetColorsEnabled mk false) rt level color msg fields [].
Proof.
  intros Hmsg Hfile Hfn Hblock.
  destruct (getCallerInfo rt 3) as [[file line] fn] eqn:Hci.
  cbn [fst snd] in Hfile, Hfn.
  rewrite !(log_unfold _ _ _ _ _ _ _ _ _ _ Hci).
  unfold SetColorsEnabled. cbn [colorsEnabled].
  rewrite !app_nil_l, fmap_cons. f_equal.
  - rewrite !ColorizeIfEnabled_off.
    assert (hasByte ESC (time.Format (Now rt)) = false) as Hts
      by apply hasByte_ESC_Format.
    assert (hasByte ESC (Itoa line) = false) as Hline
      by apply hasByte_ESC_Itoa.
    unfold locationSegment. rewrite !ColorizeIfEnabled_off.
    refine (proj1 (_ : strips _ _)).
    repeat first
      [ apply getColoredLevel_strips
      | by apply getColoredMessage_strips
      | by apply strips_plain
      | by (unfold palette; repeat constructor)
      | lazymatch goal with
        | |- strips (ColorizeIfEnabled _ _ _ _) _ =>
            apply strips_ColorizeIfEnabled
        | |- strips (_ +:+ _) (_ +:+ _) => apply strips_app
        end ].
  - destruct fields as [|f rest]; [done|].
    rewrite fmap_cons. f_equal. unfold fieldsWrite. cbn [colorsEnabled].
    rewrite !ColorizeIfEnabled_off.
    rewrite (formatFieldsAsJSON_receiver _ mk),
      (formatFieldsAsJSON_receiver {| colorsEnabled := false |} mk).
    refine (proj1 (_ : strips _ _)).
    repeat first
      [ by apply strips_plain
      | by (unfold palette; repeat constructor)
      | lazymatch goal with
        | |- strips (ColorizeIfEnabled _ _ _ _) _ =>
            apply strips_ColorizeIfEnabled
        | |- strips (_ +:+ _) (_ +:+ _) => apply strips_app
        end ].
Qed.

Lemma log_colors_presentation_only_witness :
  hasByte ESC "boom" = false
  ∧ hasByte ESC (getCallerInfo sampleRuntime 3).1.1 = false
  ∧ hasByte ESC (shortName (getCallerInfo sampleRuntime 3).2) = false
  ∧ hasByte ESC (formatFieldsAsJSON colorLogger [fieldX1]) = false
  ∧ stripEscapes false
      <$> log (SetColorsEnabled colorLogger true) sampleRuntime LevelCritical
            Red "boom" [fieldX1] []
    = log (SetColorsEnabled colorLogger false) sampleRuntime LevelCritical
        Red "boom" [fieldX1] [].
Proof.
  assert (hasByte ESC "boom" = false) as H1 by reflexivity.
  assert (hasByte ESC (getCallerInfo sampleRuntime 3).1.1 = false) as H2
    by reflexivity.
  assert (hasByte ESC (shortName (getCallerInfo sampleRuntime 3).2) = false)
    as H3 by reflexivity.
  assert (hasByte ESC (formatFieldsAsJSON colorLogger [fieldX1]) = false)
    as H4 by (vm_compute; reflexivity).
  split_and!; [exact H1|exact H2|exact H3|exact H4|].
  exact (log_colors_presentation_only colorLogger sampleRuntime LevelCritical
           Red "boom" [fieldX1] H1 H2 H3 H4).
Defined.

(** ** The level tags *)

Lemma Contains_ColorizeIfEnabled (text : string) (enabled : bool) (fg : Color)
    (bg : list Color) :
  Contains (ColorizeIfEnabled text enabled fg bg) text = true.
Proof.
  destruct enabled; [|apply Contains_refl].
  unfold ColorizeIfEnabled, Colorize. simpl negb. cbv iota.
  destruct bg as [|bg0 rest];
    repeat first
      [ apply Contains_HasPrefix, HasPrefix_app | apply Contains_app_r ].
Qed.

Lemma getColoredLevel_contains_label (mk : MakLogger) (level : Level)
    (icon label : string) :
  (level, icon, label) ∈ levelTable →
  Contains (getColoredLevel mk level) label = true.
Proof.
  unfold levelTable. intros Hin.
  repeat (apply elem_of_cons in Hin as [[= -> -> ->]|Hin];
          [unfold getColoredLevel; simpl Z.eqb; cbv iota;
           apply Contains_app_r, Contains_app_r, Contains_ColorizeIfEnabled|]).
  by apply elem_of_nil in Hin.
Qed.

Lemma getColoredMessage_contains (mk : MakLogger) (level : Level)
    (msg : string) :
  level ∈ fixedLevels → Contains (getColoredMessage mk level msg) msg = true.
Proof.
  unfold fixedLevels. intros Hin.
  repeat (apply elem_of_cons in Hin as [->|Hin];
          [unfold getColoredMessage; simpl Z.eqb; cbv iota;
           apply Contains_ColorizeIfEnabled|]).
  by apply elem_of_nil in Hin.
Qed.

(** X3. For every level of the fixed set and either setting of the flag,
    the tag shows the icon and the label of the presentation table; the
    label is eight bytes wide, so the columns of successive lines align;
    the colored tag differs from the plain one by control sequences only;
    and two levels never share a tag. *)
Theorem getColoredLevel_tags (enabled : bool) (level : Level)
    (icon label : string) :
  (level, icon, label) ∈ levelTable →
  getColoredLevel {| colorsEnabled := false |} level = icon +:+ " " +:+ label
  ∧ stripEscapes false (getColoredLevel {| colorsEnabled := enabled |} level)
    = icon +:+ " " +:+ label
  ∧ Contains (getColoredLevel {| colorsEnabled := enabled |} level) label = true
  ∧ String.length label = 8%nat
  ∧ ∀ level' icon' label',
      (level', icon', label') ∈ levelTable → level' ≠ level →
      label' ≠ label ∧ icon' ≠ icon.
Proof.
  intros Hin.
  destruct (elem_of_levelTable _ _ _ Hin) as [Hplain _].
  pose proof (getColoredLevel_strips enabled level) as [Hstrip _].
  rewrite Hplain in Hstrip.
  split_and!; [done|done|..].
  - by eapply getColoredLevel_contains_label.
  - revert Hin. unfold levelTable. intros Hin.
    repeat (apply elem_of_cons in Hin as [[= -> -> ->]|Hin]; [done|]).
    by apply elem_of_nil in Hin.
  - intros level' icon' label' Hin' Hne.
    revert Hin Hin'. unfold levelTable. intros Hin Hin'.
    repeat (apply elem_of_cons in Hin as [[= -> -> ->]|Hin];
            [repeat (apply elem_of_cons in Hin' as [[= -> -> ->]|Hin'];
                     [done|]);
             by apply elem_of_nil in Hin'|]).
    by apply elem_of_nil in Hin.
Qed.

Lemma getColoredLevel_tags_witness :
  (LevelError, "❌ ", "ERROR   ") ∈ levelTable
  ∧ stripEscapes false (getColoredLevel colorLogger LevelError)
    = "❌ " +:+ " " +:+ "ERROR   ".
Proof.
  assert ((LevelError, "❌ ", "ERROR   ") ∈ levelTable) as Hin
    by (unfold levelTable; repeat constructor).
  split; [exact Hin|].
  exact (proj1 (proj2 (getColoredLevel_tags true LevelError _ _ Hin))).
Defined.

(** ** The location segment *)

Lemma Join_Split (s : string) (sep : ascii) :
  Join (Split s sep) (single sep) = s.
Proof.
  induction s as [|c s IH]; simpl; [done|].
  pose proof (Split_nonempty s sep) as Hne.
  destruct (Split s sep) as [|w ws]; [done|].
  destruct (Ascii.eqb c sep) eqn:Hc.
  - apply Ascii.eqb_eq in Hc as ->. by rewrite Join_cons, IH.
  - destruct ws as [|w' ws]; simpl in *; [by rewrite IH|].
    by rewrite append_cons, IH.
Qed.

Lemma Join_last (elems : list string) (sep : string) :
  ∃ front, Join elems sep = front +:+ default EmptyString (last elems).
Proof.
  induction elems as [|e rest [front IH]]; [by exists EmptyString|].
  destruct rest as [|e' rest].
  - by exists EmptyString.
  - exists (e +:+ sep +:+ front). rewrite Join_cons, IH.
    by rewrite !append_assoc.
Qed.

Lemma last_Split_Some (s : string) (sep : ascii) :
  last (Split s sep) = Some (default EmptyString (last (Split s sep))).
Proof.
  pose proof (Split_nonempty s sep) as Hne.
  destruct (last (Split s sep)) eqn:Hlast; [done|].
  by apply last_None in Hlast.
Qed.

(** X4. The function name [log] displays is the part of the runtime's
    name after its last dot: it holds no dot, it is a suffix of the full
    name, a name without a dot is displayed whole, and the guarded fallback
    to the full name is never taken, [Split] giving at least one part. *)
Theorem shortName_last_segment (fn : string) :
  is_Some (last (Split fn "."%char))
  ∧ hasByte "."%char (shortName fn) = false
  ∧ (∃ qualifier, fn = qualifier +:+ shortName fn)
  ∧ (hasByte "."%char fn = false → shortName fn = fn)
  ∧ ∀ qualifier name,
      hasByte "."%char name = false →
      shortName (qualifier +:+ "." +:+ name) = name.
Proof.
  unfold shortName.
  pose proof (last_Split_Some fn "."%char) as Hlast.
  split_and!.
  - by rewrite Hlast.
  - rewrite Hlast. simpl.
    pose proof (Split_sep_free fn "."%char) as Hfree.
    rewrite Forall_forall in Hfree. apply Hfree.
    apply last_Some_elem_of. exact Hlast.
  - destruct (Join_last (Split fn "."%char) (single "."%char)) as [front Hj].
    rewrite Join_Split in Hj. exists front. rewrite Hlast. simpl. exact Hj.
  - intros Hfn. by rewrite (Split_no_sep _ _ Hfn).
  - intros qualifier name Hname.
    change ("." +:+ name) with (String "."%char name).
    rewrite Split_app_sep, (Split_no_sep _ _ Hname).
    by rewrite last_snoc.
Qed.

(** ** stack.go: a frame that is found *)

Lemma Base_last_element (dir name : string) :
  name ≠ EmptyString → hasByte "/"%char name = false →
  filepath.Base (dir +:+ "/" +:+ name) = name
  ∧ filepath.Base name = name.
Proof.
  intros Hname Hfree. unfold filepath.Base. split.
  - assert (String.eqb (dir +:+ "/" +:+ name) EmptyString = false) as ->.
    { apply String.eqb_neq. intros Heq.
      apply (f_equal String.length) in Heq.
      rewrite !length_append in Heq. simpl in Heq. lia. }
    change ("/" +:+ name) with (String "/"%char name).
    rewrite Split_app_sep, (Split_no_sep _ _ Hfree).
    rewrite filter_app, filter_cons_True by done.
    rewrite filter_nil. by rewrite last_snoc.
  - assert (String.eqb name EmptyString = false) as ->
      by (by apply String.eqb_neq).
    rewrite (Split_no_sep _ _ Hfree).
    by rewrite filter_cons_True by done.
Qed.

(** X5. When the stack walk finds the frame, [getCallerInfo] reports the
    last element of the file path (the directories never reach the output),
    the line unchanged, and the name of the function, or ["???"] for the
    function alone when the symbol table does not know the program
    counter. *)
Theorem getCallerInfo_found (rt : Runtime) (skip : Z) (fr : Frame)
    (dir name : string) :
  Caller rt skip = Some fr →
  file fr = dir +:+ "/" +:+ name →
  name ≠ EmptyString → hasByte "/"%char name = false →
  getCallerInfo rt skip
  = (name, line fr, default "???" (FuncForPC rt (pc fr)))
  ∧ (FuncForPC rt (pc fr) = None →
     getCallerInfo rt skip = (name, line fr, "???")).
Proof.
  intros Hfr Hfile Hname Hfree.
  assert (getCallerInfo rt skip
          = (name, line fr, default "???" (FuncForPC rt (pc fr)))) as Hci.
  { unfold getCallerInfo. rewrite Hfr, Hfile.
    rewrite (proj1 (Base_last_element dir name Hname Hfree)).
    by destruct (FuncForPC rt (pc fr)). }
  split; [done|]. intros Hnone. by rewrite Hci, Hnone.
Qed.

Lemma getCallerInfo_found_witness :
  Caller sampleRuntime 3
  = Some {| pc := 4198400; file := "/home/dev/app/main.go"; line := 15 |}
  ∧ "/home/dev/app/main.go" = "/home/dev/app" +:+ "/" +:+ "main.go"
  ∧ "main.go" ≠ EmptyString
  ∧ hasByte "/"%char "main.go" = false
  ∧ getCallerInfo sampleRuntime 3 = ("main.go", 15, "main.main").
Proof.
  assert ("main.go" ≠ EmptyString) as Hname by discriminate.
  split_and!; [reflexivity|reflexivity|exact Hname|reflexivity|].
  exact (proj1 (getCallerInfo_found sampleRuntime 3
                  {| pc := 4198400; file := "/home/dev/app/main.go";
                     line := 15 |}
                  "/home/dev/app" "main.go" eq_refl eq_refl Hname eq_refl)).
Defined.

(** ** The serialized block, further *)

(** X6. When the field map serializes, the block has the lines of the
    output of [MarshalIndent], in the same number and order, each with two
    spaces in front. *)
Theorem formatFieldsAsJSON_lines (mk : MakLogger) (fields : list Field)
    (s : string) :
  fields ≠ [] →
  json.MarshalIndent (VMap (fieldMap fields)) "  " "  " = json.Ok s →
  Split (formatFieldsAsJSON mk fields) LF
  = (λ line, "  " +:+ line) <$> Split s LF.
Proof.
  intros Hne Hok. destruct fields as [|f rest]; [done|].
  unfold formatFieldsAsJSON. simpl length. cbn [Nat.eqb]. rewrite Hok.
  apply Split_Join.
  - pose proof (Split_nonempty s LF). by destruct (Split s LF).
  - apply Forall_fmap. eapply Forall_impl; [apply Split_sep_free|].
    intros w Hw. simpl. by rewrite hasByte_app, Hw.
Qed.

Lemma formatFieldsAsJSON_lines_witness :
  [fieldB2; fieldA1] ≠ []
  ∧ json.MarshalIndent (VMap (fieldMap [fieldB2; fieldA1])) "  " "  "
    = json.Ok (Join [ "{"; "    " +:+ json.appendString "a" +:+ ": 1,";
                      "    " +:+ json.appendString "b" +:+ ": 2"; "  }" ]
                 (single LF))
  ∧ Split (formatFieldsAsJSON plainLogger [fieldB2; fieldA1]) LF
    = [ "  {"; "      " +:+ json.appendString "a" +:+ ": 1,";
        "      " +:+ json.appendString "b" +:+ ": 2"; "    }" ].
Proof.
  assert ([fieldB2; fieldA1] ≠ []) as Hne by discriminate.
  assert (json.MarshalIndent (VMap (fieldMap [fieldB2; fieldA1])) "  " "  "
          = json.Ok (Join [ "{"; "    " +:+ json.appendString "a" +:+ ": 1,";
                            "    " +:+ json.appendString "b" +:+ ": 2";
                            "  }" ] (single LF))) as Hok
    by (vm_compute; reflexivity).
  split_and!; [exact Hne|exact Hok|].
  exact (formatFieldsAsJSON_lines plainLogger _ _ Hne Hok).
Defined.

Lemma ends_with_app (s t u : string) :
  (∃ body, t = body +:+ u) → ∃ body, s +:+ t = body +:+ u.
Proof. intros [body ->]. exists (s +:+ body). by rewrite append_assoc. Qed.

(** X7. The block is empty exactly when no field is given.  Otherwise,
    whether the serialization succeeds or fails, it opens with the line
    ["  {"] and its last byte is the closing brace: the serializer never
    ends the block with a line feed, [log] adds it. *)
Theorem formatFieldsAsJSON_frame (mk : MakLogger) (fields : list Field) :
  (formatFieldsAsJSON mk fields = EmptyString ↔ fields = [])
  ∧ (fields ≠ [] →
     HasPrefix (formatFieldsAsJSON mk fields) ("  {" +:+ single LF) = true
     ∧ ∃ body, formatFieldsAsJSON mk fields = body +:+ "}").
Proof.
  assert (fields ≠ [] →
          HasPrefix (formatFieldsAsJSON mk fields) ("  {" +:+ single LF) = true
          ∧ ∃ body, formatFieldsAsJSON mk fields = body +:+ "}") as Hframe.
  { intros Hne.
    destruct (json.MarshalIndent (VMap (fieldMap fields)) "  " "  ")
      as [s|err] eqn:Hm.
    - destruct (formatFieldsAsJSON_Ok mk fields s Hne Hm)
        as (rendered & _ & ->).
      split.
      + rewrite <-append_assoc. apply HasPrefix_app.
      + repeat lazymatch goal with
               | |- ∃ body, _ +:+ _ = _ => apply ends_with_app
               end.
        by exists "    ".
    - destruct fields as [|f rest]; [done|].
      rewrite formatFieldsAsJSON_cons, Hm. unfold marshalFailure. split.
      + rewrite <-append_assoc. apply HasPrefix_app.
      + repeat lazymatch goal with
               | |- ∃ body, _ +:+ _ = _ => apply ends_with_app
               end.
        by exists "  ". }
  split; [|done]. split; [|by intros ->].
  intros Hempty. destruct (decide (fields = [])) as [|Hne]; [done|].
  destruct (Hframe Hne) as [Hprefix _]. by rewrite Hempty in Hprefix.
Qed.

(** ** Fields that override one another *)

Lemma fieldMap_app (earlier later : list Field) :
  fieldMap (earlier ++ later) = fieldMap later ∪ fieldMap earlier.
Proof.
  apply map_eq. intros k.
  rewrite lookup_union, !fieldMap_lookup, lastValue_app.
  destruct (lastValue k later), (lastValue k earlier); done.
Qed.

(** X8. The field map of two sequences put end to end is the map of the
    later one completed by the map of the earlier one.  So fields whose
    keys all come again later leave no trace in the block, and giving a
    sequence twice changes nothing. *)
Theorem formatFieldsAsJSON_overridden (mk : MakLogger)
    (earlier later : list Field) :
  fieldMap (earlier ++ later) = fieldMap later ∪ fieldMap earlier
  ∧ ((∀ f, f ∈ earlier → Key f ∈ Key <$> later) →
     formatFieldsAsJSON mk (earlier ++ later) = formatFieldsAsJSON mk later)
  ∧ formatFieldsAsJSON mk (later ++ later) = formatFieldsAsJSON mk later.
Proof.
  assert (∀ l1 l2, (∀ f, f ∈ l1 → Key f ∈ Key <$> l2) →
            formatFieldsAsJSON mk (l1 ++ l2) = formatFieldsAsJSON mk l2)
    as Hover.
  { intros l1 l2 Hkeys.
    destruct l2 as [|f2 l2].
    - destruct l1 as [|f1 l1]; [done|].
      specialize (Hkeys f1 (list_elem_of_here _ _)).
      by apply elem_of_nil in Hkeys.
    - apply formatFieldsAsJSON_fieldMap; [by destruct l1|done|].
      rewrite fieldMap_app. apply map_eq. intros k.
      rewrite lookup_union.
      destruct (fieldMap (f2 :: l2) !! k) as [v|] eqn:Hk2;
        [by destruct (fieldMap l1 !! k)|].
      destruct (fieldMap l1 !! k) as [v|] eqn:Hk1; [|done].
      exfalso.
      assert (k ∈ Key <$> l1) as Hin
        by (apply elem_of_dom_fieldMap; by rewrite Hk1).
      apply list_elem_of_fmap in Hin as (f & -> & Hf).
      apply Hkeys, elem_of_dom_fieldMap in Hf as [v' Hv'].
      by rewrite Hk2 in Hv'. }
  split_and!.
  - apply fieldMap_app.
  - apply Hover.
  - apply Hover. intros f Hf. apply list_elem_of_fmap. by exists f.
Qed.

Lemma fieldMap_replaced (earlier later : list Field) (k : string) (v : any) :
  k ∈ Key <$> later →
  fieldMap (earlier ++ {| Key := k; Value := v |} :: later)
  = fieldMap (earlier ++ later).
Proof.
  intros Hk. apply map_eq. intros k'.
  rewrite !fieldMap_lookup, !lastValue_app. cbn [lastValue Key Value].
  destruct (lastValue k' later) as [w|] eqn:Hlater; [done|].
  destruct (decide (k = k')) as [<-|Hne]; [|done].
  by apply lastValue_None in Hlater.
Qed.

(** The block of a sequence that serializes is never a fallback block: its
    second line starts with six spaces, that of a fallback block with four
    spaces and a quote. *)
Lemma marshalFailure_not_Ok (mk : MakLogger) (fields : list Field)
    (s : string) (err : json.error) :
  fields ≠ [] →
  json.MarshalIndent (VMap (fieldMap fields)) "  " "  " = json.Ok s →
  formatFieldsAsJSON mk fields ≠ marshalFailure err.
Proof.
  intros Hne Hok Heq.
  destruct (formatFieldsAsJSON_Ok mk fields s Hne Hok)
    as (rendered & Hall & Hfmt).
  assert (rendered ≠ []) as Hrendered.
  { intros ->. apply Forall2_nil_inv_r in Hall.
    by apply sortedEntries_nonempty in Hall; [|apply fieldMap_nonempty]. }
  rewrite Hfmt in Heq. unfold marshalFailure in Heq.
  apply (inj (String.app "  {")), (inj (String.app (single LF))) in Heq.
  destruct rendered as [|r rs]; [done|].
  rewrite fmap_cons in Heq.
  assert (∃ tail, Join (("      " +:+ json.appendString r.1 +:+ ": "
                          +:+ shiftLines "  " r.2)
                        :: ((λ ks, "      " +:+ json.appendString ks.1 +:+ ": "
                              +:+ shiftLines "  " ks.2) <$> rs))
                     ("," +:+ single LF) +:+ single LF +:+ "    }"
                  = "     " +:+ tail) as [tail Htail].
  { destruct rs as [|r' rs].
    - eexists. simpl Join. rewrite !append_assoc. reflexivity.
    - eexists. rewrite fmap_cons, Join_cons, !append_assoc. reflexivity. }
  rewrite Htail in Heq. discriminate Heq.
Qed.

(** X9. When the last field that carries some key has a value the encoder
    rejects (a channel, a function, a value whose [MarshalJSON] fails, or a
    container holding one), the serialization fails and the block is the
    fallback block, which contains the description of the failure.  A
    value, rejected or not, that a later field with the same key replaces
    is never given to the encoder: the field map and the block are those
    of the sequence without that field, and when the other fields
    serialize the block is not a fallback block. *)
Theorem formatFieldsAsJSON_unsupported (mk : MakLogger) :
  (∀ fields k v e,
     lastValue k fields = Some v → json.Marshal v = json.Err e →
     ∃ err,
       json.MarshalIndent (VMap (fieldMap fields)) "  " "  " = json.Err err
       ∧ formatFieldsAsJSON mk fields = marshalFailure err
       ∧ Contains (formatFieldsAsJSON mk fields)
           ("failed to marshal fields: " +:+ json.Error err) = true)
  ∧ (∀ earlier later k v,
       k ∈ Key <$> later →
       fieldMap (earlier ++ {| Key := k; Value := v |} :: later)
       = fieldMap (earlier ++ later)
       ∧ formatFieldsAsJSON mk (earlier ++ {| Key := k; Value := v |} :: later)
         = formatFieldsAsJSON mk (earlier ++ later))
  ∧ (∀ earlier later k v s,
       k ∈ Key <$> later →
       json.MarshalIndent (VMap (fieldMap (earlier ++ later))) "  " "  "
       = json.Ok s →
       ∀ err,
         formatFieldsAsJSON mk (earlier ++ {| Key := k; Value := v |} :: later)
         ≠ marshalFailure err).
Proof.
  assert (∀ earlier later k v,
            k ∈ Key <$> later →
            formatFieldsAsJSON mk
              (earlier ++ {| Key := k; Value := v |} :: later)
            = formatFieldsAsJSON mk (earlier ++ later)) as Hsame.
  { intros earlier later k v Hk. apply formatFieldsAsJSON_fieldMap.
    - by destruct earlier.
    - destruct later as [|f later]; [by apply elem_of_nil in Hk|].
      by destruct earlier.
    - by apply fieldMap_replaced. }
  split_and!.
  - intros fields k v e Hk Hv. rewrite <-fieldMap_lookup in Hk.
    destruct (MarshalIndent_rejected _ _ _ _ "  " "  " Hk Hv) as [err Herr].
    exists err. split; [done|].
    destruct fields as [|f rest]; [done|].
    rewrite formatFieldsAsJSON_cons, Herr. split; [done|].
    unfold marshalFailure.
    rewrite <-(append_assoc "failed to marshal fields: " (json.Error err)).
    do 8 apply Contains_app_r. apply Contains_HasPrefix, HasPrefix_app.
  - intros earlier later k v Hk. split; [by apply fieldMap_replaced|].
    by apply Hsame.
  - intros earlier later k v s Hk Hok err. rewrite Hsame by done.
    apply (marshalFailure_not_Ok mk _ s); [|done].
    destruct later as [|f later]; [by apply elem_of_nil in Hk|].
    by destruct earlier.
Qed.

Lemma formatFieldsAsJSON_unsupported_witness :
  lastValue "ch" [fieldChan; fieldX1] = Some (VUnsupported "chan int")
  ∧ (∃ err, formatFieldsAsJSON plainLogger [fieldChan; fieldX1]
            = marshalFailure err)
  ∧ formatFieldsAsJSON plainLogger
      [fieldChan; {| Key := "ch"; Value := VInt 3 |}]
    = formatFieldsAsJSON plainLogger [{| Key := "ch"; Value := VInt 3 |}]
  ∧ Split (formatFieldsAsJSON plainLogger
             [fieldChan; {| Key := "ch"; Value := VInt 3 |}]) LF
    = [ "  {"; "      " +:+ json.appendString "ch" +:+ ": 3"; "    }" ].
Proof.
  assert (lastValue "ch" [fieldChan; fieldX1] = Some (VUnsupported "chan int"))
    as Hk by reflexivity.
  destruct (formatFieldsAsJSON_unsupported plainLogger)
    as (Hfail & Hreplaced & _).
  split_and!; [exact Hk| | |vm_compute; reflexivity].
  - destruct (Hfail _ _ _ _ Hk eq_refl) as (err & _ & Hfmt & _).
    exists err. exact Hfmt.
  - refine (proj2 (Hreplaced [] [{| Key := "ch"; Value := VInt 3 |}] "ch"
                     (VUnsupported "chan int") _)).
    simpl. left.
Defined.

(** ** The entry points *)

Lemma log_line_contains (mk : MakLogger) (rt : Runtime) (level : Level)
    (color : Color) (msg : string) (fields : list Field) (out : Stdout)
    (label : string) :
  Contains (getColoredLevel mk level) label = true →
  Contains (getColoredMessage mk level msg) msg = true →
  ∃ written rest,
    log mk rt level color msg fields out = out ++ written :: rest
    ∧ Contains written label = true
    ∧ Contains written msg = true.
Proof.
  intros Hlabel Hmsg.
  destruct (getCallerInfo_total rt 3) as (file & line & fn & Hci).
  rewrite (log_unfold _ _ _ _ _ _ _ _ _ _ Hci).
  do 2 eexists. split; [reflexivity|]. split.
  - do 4 apply Contains_app_r. by apply Contains_app_l.
  - do 10 apply Contains_app_r. by apply Contains_app_l.
Qed.

(** X10. Each of the six entry points is [log] at its own level: [Info]
    prints the label INFO, [Warn] WARNING, [Error] ERROR, [Success]
    SUCCESS, [Debug] DEBUG and [Critical] CRITICAL, together with the
    message, whatever the flag.  The color an entry point hands to [log]
    (yellow for [Info] and [Warn], red for the other four) is never read:
    any other color gives the same output. *)
Theorem entryPoints_levels
    (entry : MakLogger → Runtime → string → list Field → Stdout → Stdout)
    (level : Level) (label : string) (mk : MakLogger) (rt : Runtime)
    (msg : string) (fields : list Field) (out : Stdout) :
  (entry, level, label) ∈ entryPoints →
  level ∈ fixedLevels
  ∧ (∀ color,
       entry mk rt msg fields out = log mk rt level color msg fields out)
  ∧ ∃ written rest,
      entry mk rt msg fields out = out ++ written :: rest
      ∧ Contains written label = true
      ∧ Contains written msg = true.
Proof.
  unfold entryPoints. intros Hin.
  repeat (apply elem_of_cons in Hin as [[= -> -> ->]|Hin];
    [ split; [unfold fixedLevels; repeat constructor|];
      split; [done|];
      eapply log_line_contains;
      [ eapply getColoredLevel_contains_label;
        unfold levelTable; repeat constructor
      | apply getColoredMessage_contains;
        unfold fixedLevels; repeat constructor ] |]).
  by apply elem_of_nil in Hin.
Qed.

Lemma entryPoints_levels_witness :
  (Success, LevelSuccess, "SUCCESS ") ∈ entryPoints
  ∧ Success colorLogger sampleRuntime "saved" [] []
    = log colorLogger sampleRuntime LevelSuccess Green "saved" [] [].
Proof.
  assert ((Success, LevelSuccess, "SUCCESS ") ∈ entryPoints) as Hin
    by (unfold entryPoints; repeat constructor).
  split; [exact Hin|].
  destruct (entryPoints_levels Success LevelSuccess "SUCCESS " colorLogger
              sampleRuntime "saved" [] [] Hin) as (_ & Hcolor & _).
  exact (Hcolor Green).
Defined.

(** ** The constructor *)

Lemma eqb_windows (os : Console) :
  String.eqb (GOOS os) "windows" = bool_decide (GOOS os = "windows").
Proof.
  case_bool_decide as H.
  - by apply String.eqb_eq.
  - by apply String.eqb_neq.
Qed.

(** X11. [NewLogger] always returns a logger.  Its colors are enabled
    exactly when the host is not Windows, or when on Windows the three
    console calls return without a panic, [GetConsoleMode] and
    [SetConsoleMode] both with a non-zero result, the mode requested being
    the current mode with the virtual-terminal bit set.  That request keeps
    every other bit of the current mode. *)
Theorem NewLogger_colors (os : Console) :
  (colorsEnabled (NewLogger os) = true ↔
   GOOS os ≠ "windows"
   ∨ ∃ handle ret mode ret',
       GetStdHandle os STD_OUTPUT_HANDLE = Returns handle
       ∧ GetConsoleMode os handle = Returns (ret, mode)
       ∧ ret ≠ 0
       ∧ SetConsoleMode os handle
           (Z.lor mode ENABLE_VIRTUAL_TERMINAL_PROCESSING) = Returns ret'
       ∧ ret' ≠ 0)
  ∧ ∀ mode i,
      Z.testbit (Z.lor mode ENABLE_VIRTUAL_TERMINAL_PROCESSING) i
      = Z.testbit mode i || (i =? 2).
Proof.
  split.
  - unfold NewLogger, enableWindowsANSI. rewrite eqb_windows.
    case_bool_decide as Hos; simpl; [|by split; [left|]].
    split.
    + intros Hon. right.
      destruct (GetStdHandle os STD_OUTPUT_HANDLE) as [handle|] eqn:Hh;
        [|done].
      destruct (GetConsoleMode os handle) as [[ret mode]|] eqn:Hget; [|done].
      destruct (ret =? 0) eqn:Hret; [done|].
      destruct (SetConsoleMode os handle _) as [ret'|] eqn:Hset; [|done].
      destruct (ret' =? 0) eqn:Hret'; [done|].
      apply Z.eqb_neq in Hret, Hret'.
      by exists handle, ret, mode, ret'.
    + intros [Hne|(handle & ret & mode & ret' & -> & -> & Hret & -> & Hret')];
        [done|].
      apply Z.eqb_neq in Hret, Hret'. by rewrite Hret, Hret'.
  - intros mode i. rewrite Z.lor_spec. f_equal.
    unfold ENABLE_VIRTUAL_TERMINAL_PROCESSING.
    destruct (Z.eqb_spec i 2) as [->|Hne]; [done|].
    destruct i as [|p|p]; [done| |done].
    destruct p as [[]|[]|]; done.
Qed.

(** X12. [enableWindowsANSI] can only lower the flag: it returns the
    logger unchanged or with colors disabled, never enables colors that
    were off, and off Windows it does nothing whatever the console
    procedures would do.  On Windows a panic of any of the three console
    calls, [GetStdHandle], [GetConsoleMode] or [SetConsoleMode], is
    recovered and leaves the colors disabled. *)
Theorem enableWindowsANSI_only_lowers (os : Console) (mk : MakLogger) :
  (enableWindowsANSI os mk = mk
   ∨ enableWindowsANSI os mk = SetColorsEnabled mk false)
  ∧ (colorsEnabled (enableWindowsANSI os mk) = true →
     colorsEnabled mk = true)
  ∧ (GOOS os ≠ "windows" → enableWindowsANSI os mk = mk)
  ∧ (GOOS os = "windows" →
     GetStdHandle os STD_OUTPUT_HANDLE = Panics
     ∨ (∃ handle, GetStdHandle os STD_OUTPUT_HANDLE = Returns handle
                  ∧ GetConsoleMode os handle = Panics)
     ∨ (∃ handle ret mode,
          GetStdHandle os STD_OUTPUT_HANDLE = Returns handle
          ∧ GetConsoleMode os handle = Returns (ret, mode)
          ∧ SetConsoleMode os handle
              (Z.lor mode ENABLE_VIRTUAL_TERMINAL_PROCESSING) = Panics) →
     colorsEnabled (enableWindowsANSI os mk) = false).
Proof.
  assert (enableWindowsANSI os mk = mk
          ∨ enableWindowsANSI os mk = SetColorsEnabled mk false) as Hcases.
  { unfold enableWindowsANSI, SetColorsEnabled.
    repeat case_match; auto. }
  split_and!.
  - done.
  - destruct Hcases as [->| ->]; done.
  - intros Hne. unfold enableWindowsANSI. rewrite eqb_windows.
    by rewrite bool_decide_eq_false_2.
  - intros Hos Hpanic. unfold enableWindowsANSI. rewrite eqb_windows.
    rewrite bool_decide_eq_true_2 by done. simpl.
    destruct Hpanic
      as [->|[(handle & -> & ->)|(handle & ret & mode & -> & -> & ->)]];
      [done..|].
    by destruct (ret =? 0).
Qed.

Lemma enableWindowsANSI_only_lowers_witness :
  GOOS legacyConsole = "windows"
  ∧ SetConsoleMode legacyConsole 84
      (Z.lor 3 ENABLE_VIRTUAL_TERMINAL_PROCESSING) = Panics
  ∧ colorsEnabled (enableWindowsANSI legacyConsole colorLogger) = false.
Proof.
  split_and!; [reflexivity..|].
  destruct (enableWindowsANSI_only_lowers legacyConsole colorLogger)
    as (_ & _ & _ & Hpanic).
  apply Hpanic; [reflexivity|].
  right. right. by exists 84, 1, 3.
Defined.

(** ** Escape bytes in the block *)

Lemma anySize_slice (xs : list any) (x : any) :
  x ∈ xs → (anySize x < anySize (VSlice xs))%nat.
Proof.
  intros Hin. cbn [anySize]. apply Nat.lt_succ_r.
  induction Hin as [x xs|x y xs _ IH]; simpl; lia.
Qed.

Lemma anySize_map (m : gmap string any) (k : string) (x : any) :
  m !! k = Some x → (anySize x < anySize (VMap m))%nat.
Proof.
  intros Hk. cbn [anySize]. apply Nat.lt_succ_r.
  rewrite (map_fold_delete_L _ _ k x m); [lia| |done].
  intros. lia.
Qed.

Lemma hasByte_ESC_appendByte (b : ascii) :
  hasByte ESC (json.appendByte b) = false.
Proof. destruct b as [[] [] [] [] [] [] [] []]; vm_compute; reflexivity. Qed.

Lemma between_not_ESC (lo hi : N) (b : ascii) :
  (28 ≤ lo)%N → json.between lo hi b = true → Ascii.eqb b ESC = false.
Proof.
  unfold json.between. intros Hlo [Hb _]%andb_true_iff.
  apply N.leb_le in Hb. apply Ascii.eqb_neq. intros ->.
  change (N_of_ascii ESC) with 27%N in Hb. lia.
Qed.

Lemma high_not_ESC (b : ascii) :
  (N_of_ascii b <? 128)%N = false → Ascii.eqb b ESC = false.
Proof.
  intros Hb. apply N.ltb_ge in Hb. apply Ascii.eqb_neq. intros ->.
  change (N_of_ascii ESC) with 27%N in Hb. lia.
Qed.

Lemma runeLen_continuation_ESC (b0 : ascii) (r0 : string) :
  match json.runeLen (String b0 r0), r0 with
  | 2%nat, String b1 _ => Ascii.eqb b1 ESC = false
  | 3%nat, String b1 (String b2 _) =>
      Ascii.eqb b1 ESC = false ∧ Ascii.eqb b2 ESC = false
  | 4%nat, String b1 (String b2 (String b3 _)) =>
      Ascii.eqb b1 ESC = false ∧ Ascii.eqb b2 ESC = false
      ∧ Ascii.eqb b3 ESC = false
  | _, _ => True
  end.
Proof.
  unfold json.runeLen.
  repeat case_match; simplify_eq; try done;
    repeat match goal with
    | H : _ && _ = true |- _ => apply andb_true_iff in H as [? ?]
    end;
    split_and?; (eapply between_not_ESC; [|eassumption]; lia).
Qed.

Lemma hasByte_ESC_appendRunes (src : string) :
  hasByte ESC (json.appendRunes src) = false.
Proof.
  remember (String.length src) as n eqn:Hn. revert src Hn.
  induction n as [n IH] using lt_wf_ind. intros src ->.
  destruct src as [|b0 r0]; [done|].
  cbn [json.appendRunes].
  destruct (N_of_ascii b0 <? 128)%N eqn:Hb0.
  { rewrite hasByte_app, hasByte_ESC_appendByte. simpl.
    eapply IH; [|done]. simpl. lia. }
  pose proof (runeLen_continuation_ESC b0 r0) as Hcont.
  pose proof (high_not_ESC _ Hb0) as Hb0'.
  assert (hasByte ESC ("\ufffd" +:+ json.appendRunes r0) = false) as Hbad.
  { rewrite hasByte_app. simpl. eapply IH; [|done]. simpl. lia. }
  destruct (json.runeLen (String b0 r0)) as [|[|[|[|[|?]]]]]; try done.
  - destruct r0 as [|b1 r1]; [done|].
    simpl. rewrite Hb0', Hcont. simpl. eapply IH; [|done]. simpl. lia.
  - destruct r0 as [|b1 [|b2 r2]]; [done..|].
    destruct Hcont as [Hb1 Hb2].
    case_match.
    + rewrite hasByte_app. simpl.
      assert (Ascii.eqb (json.hex (N.land (N_of_ascii b2) 15)) ESC = false)
        as ->.
      { clear. destruct b2 as [[] [] [] [] [] [] [] []]; vm_compute;
          reflexivity. }
      simpl. eapply IH; [|done]. simpl. lia.
    + simpl. rewrite Hb0', Hb1, Hb2. simpl. eapply IH; [|done]. simpl. lia.
  - destruct r0 as [|b1 [|b2 [|b3 r3]]]; [done..|].
    destruct Hcont as (Hb1 & Hb2 & Hb3).
    simpl. rewrite Hb0', Hb1, Hb2, Hb3. simpl. eapply IH; [|done]. simpl. lia.
Qed.

Lemma hasByte_ESC_appendString (src : string) :
  hasByte ESC (json.appendString src) = false.
Proof.
  unfold json.appendString. simpl.
  by rewrite hasByte_app, hasByte_ESC_appendRunes.
Qed.

Lemma hasByte_Join (c : ascii) (elems : list string) (sep : string) :
  Forall (λ e, hasByte c e = false) elems → hasByte c sep = false →
  hasByte c (Join elems sep) = false.
Proof.
  intros Helems Hsep. induction Helems as [|e rest He _ IH]; [done|].
  destruct rest as [|e' rest]; [done|].
  by rewrite Join_cons, !hasByte_app, He, Hsep, IH.
Qed.

Lemma hasByte_indentContainer (c : ascii) (prefix indent : string) (depth : N)
    (open close : string) (elems : list string) :
  Ascii.eqb LF c = false → hasByte c "," = false →
  hasByte c prefix = false → hasByte c indent = false →
  hasByte c open = false → hasByte c close = false →
  Forall (λ e, hasByte c e = false) elems →
  hasByte c (json.indentContainer prefix indent depth open close elems) = false.
Proof.
  intros Hc Hcomma Hprefix Hindent Hopen Hclose Helems.
  assert (∀ d, hasByte c (json.appendNewline prefix indent d) = false) as Hnl.
  { intros d. unfold json.appendNewline.
    rewrite !hasByte_app, Hprefix, hasByte_Repeat by done.
    unfold single. cbn [hasByte]. by rewrite Hc. }
  unfold json.indentContainer. destruct elems as [|e rest]; cbv beta iota.
  - by rewrite hasByte_app, Hopen, Hclose.
  - rewrite !hasByte_app, Hopen, Hclose, !Hnl, hasByte_Join; [done|done|].
    by rewrite hasByte_app, Hnl, Hcomma.
Qed.

Lemma mapM_Ok_Forall {A B : Type} (f : A → json.result B) (Q : B → Prop)
    (l : list A) (ys : list B) :
  mapM f l = json.Ok ys →
  (∀ x y, x ∈ l → f x = json.Ok y → Q y) → Forall Q ys.
Proof.
  revert ys. induction l as [|x l IH]; intros ys; simpl.
  - intros [= <-] _. constructor.
  - destruct (f x) as [y|e] eqn:Hx; simpl; [|done].
    destruct (mapM f l) as [ys'|e] eqn:Hl; simpl; [|done].
    intros [= <-] HQ. constructor.
    + apply (HQ x y); [left|done].
    + apply IH; [done|]. intros x' y' Hin. apply HQ. by right.
Qed.

Lemma indentValue_ESC_free (prefix indent : string) (v : any) :
  hasByte ESC prefix = false → hasByte ESC indent = false →
  ∀ depth text,
    json.indentValue prefix indent depth v = json.Ok text →
    hasByte ESC text = false.
Proof.
  intros Hprefix Hindent.
  remember (anySize v) as n eqn:Hn. revert v Hn.
  induction n as [n IH] using lt_wf_ind. intros v -> depth text.
  destruct v as [|b|i|s|xs|m|ty|ty msg]; cbn [json.indentValue json.Marshal].
  - by intros [= <-].
  - intros [= <-]. by destruct b.
  - intros [= <-]. apply hasByte_ESC_Itoa.
  - intros [= <-]. apply hasByte_ESC_appendString.
  - destruct (json.maxNestingDepth <=? depth)%N; [done|].
    destruct (mapM _ xs) as [elems|e] eqn:Helems; simpl; [|done].
    intros [= <-]. apply hasByte_indentContainer; try done.
    eapply mapM_Ok_Forall; [exact Helems|].
    intros x y Hin Hy. eapply (IH (anySize x)); [|done|exact Hy].
    by apply anySize_slice.
  - destruct (json.maxNestingDepth <=? depth)%N; [done|].
    rewrite sortedEntries_fmap.
    destruct (mapM _ _) as [entries|e] eqn:Hentries; simpl; [|done].
    intros [= <-]. apply hasByte_indentContainer; try done.
    apply mapM_entries in Hentries as (rendered & Hall & ->).
    apply Forall_fmap, Forall_forall. intros [k y] Hin.
    unfold compose. cbn [fst snd].
    destruct (rendered_lookup_inv
      (λ x y, json.indentValue prefix indent (depth + 1) x = json.Ok y)
      _ _ _ _ Hall Hin) as (x & Hx & Hy).
    apply elem_of_sortedEntries in Hx.
    rewrite !hasByte_app, hasByte_ESC_appendString.
    change (hasByte ESC ": ") with false. cbn [orb].
    eapply (IH (anySize x)); [|done|exact Hy].
    by eapply anySize_map.
  - done.
  - done.
Qed.

Lemma hasByte_shiftLines (c : ascii) (prefix text : string) :
  hasByte c prefix = false →
  hasByte c (shiftLines prefix text) = hasByte c text.
Proof.
  intros Hprefix. induction text as [|b text IH]; [done|]. simpl.
  destruct (Ascii.eqb b LF); simpl; rewrite ?hasByte_app, ?Hprefix, IH; done.
Qed.

Lemma hasByte_ESC_marshalFailure (err : json.error) :
  hasByte ESC (marshalFailure err) = hasByte ESC (json.Error err).
Proof.
  unfold marshalFailure. rewrite !hasByte_app.
  change (hasByte ESC (single DQUOTE)) with false.
  change (hasByte ESC (single LF)) with false.
  change (hasByte ESC "  {") with false.
  change (hasByte ESC "    ") with false.
  change (hasByte ESC "error") with false.
  change (hasByte ESC ": ") with false.
  change (hasByte ESC "failed to marshal fields: ") with false.
  change (hasByte ESC "  }") with false.
  cbn [orb]. by rewrite orb_false_r.
Qed.



(** ** The timestamp has a fixed width *)

Lemma appendInt_width_upto (width : nat) (bound : Z) :
  bool_decide
    (Forall (λ x, String.length (time.appendInt x width) = width)
       (seqZ 0 bound)) = true →
  ∀ x, 0 ≤ x < bound → String.length (time.appendInt x width) = width.
Proof.
  intros Hall%bool_decide_eq_true x Hx.
  rewrite Forall_forall in Hall. apply Hall, elem_of_seqZ. lia.
Qed.

Lemma appendInt_width_2 (x : Z) :
  0 ≤ x < 100 → String.length (time.appendInt x 2) = 2%nat.
Proof. apply (appendInt_width_upto 2 100). vm_compute. reflexivity. Qed.

Lemma appendInt_width_3 (x : Z) :
  0 ≤ x < 1000 → String.length (time.appendInt x 3) = 3%nat.
Proof. apply (appendInt_width_upto 3 1000). vm_compute. reflexivity. Qed.

Lemma appendInt_width_4 (x : Z) :
  0 ≤ x < 10000 → String.length (time.appendInt x 4) = 4%nat.
Proof. apply (appendInt_width_upto 4 10000). vm_compute. reflexivity. Qed.

(** X14. For a clock reading with a year of at most four digits, the
    timestamp [log] prints takes 23 bytes, with its separators at fixed
    places, so the level tag starts at the same offset on every line. *)
Theorem Format_fixed_width (t : time.Time) :
  0 ≤ time.Year t < 10000 → 1 ≤ time.Month t ≤ 12 → 1 ≤ time.Day t ≤ 31 →
  0 ≤ time.Hour t < 24 → 0 ≤ time.Minute t < 60 → 0 ≤ time.Second t < 60 →
  0 ≤ time.Nanosecond t < 1000000000 →
  String.length (time.Format t) = 23%nat
  ∧ ∃ year month day hour minute second milli,
      time.Format t
      = year +:+ "-" +:+ month +:+ "-" +:+ day +:+ " " +:+ hour +:+ ":"
        +:+ minute +:+ ":" +:+ second +:+ "." +:+ milli
      ∧ String.length year = 4%nat ∧ String.length month = 2%nat
      ∧ String.length day = 2%nat ∧ String.length hour = 2%nat
      ∧ String.length minute = 2%nat ∧ String.length second = 2%nat
      ∧ String.length milli = 3%nat.
Proof.
  intros Hy Hmo Hd Hh Hmi Hs Hn.
  assert (0 ≤ time.Nanosecond t `div` 1000000 < 1000) as Hms.
  { split; [apply Z.div_pos; lia|]. apply Z.div_lt_upper_bound; lia. }
  pose proof (appendInt_width_4 _ Hy) as Ly.
  pose proof (appendInt_width_2 (time.Month t) ltac:(lia)) as Lmo.
  pose proof (appendInt_width_2 (time.Day t) ltac:(lia)) as Ld.
  pose proof (appendInt_width_2 (time.Hour t) ltac:(lia)) as Lh.
  pose proof (appendInt_width_2 (time.Minute t) ltac:(lia)) as Lmi.
  pose proof (appendInt_width_2 (time.Second t) ltac:(lia)) as Ls.
  pose proof (appendInt_width_3 _ Hms) as Lms.
  split.
  - unfold time.Format. rewrite !length_append, Ly, Lmo, Ld, Lh, Lmi, Ls, Lms.
    reflexivity.
  - by eexists _, _, _, _, _, _, _.
Qed.

Lemma Format_fixed_width_witness :
  0 ≤ time.Year sampleTime < 10000
  ∧ String.length (time.Format sampleTime) = 23%nat
  ∧ time.Format sampleTime = "2025-09-02 15:30:45.123".
Proof.
  assert (0 ≤ time.Year sampleTime < 10000) as Hy by (simpl; lia).
  split; [exact Hy|]. split; [|reflexivity].
  refine (proj1 (Format_fixed_width sampleTime Hy _ _ _ _ _ _));
    simpl; lia.
Defined.
